(** * LCD-Pushwheel: a shallow embedding of [LCD-PushWheel.ino]

    The sketch animates an eight digit number on a character LCD as if the
    digits were painted on rolling cylinders.  This file embeds the data of
    the sketch ([digitData_t], [digitsMap], [keyDefTable]), its three
    functions ([getKey], [updateDisplay], [displayValue]) and the Arduino
    [loop], and proves properties of them.

    Conventions of the embedding:
    - [uint8_t] and [uint32_t] values are integers of [Z]; every operation
      of the sketch that can wrap has its modulus written out;
    - the C array [digits] is a list read with [!!] and written with
      [alter] and [<[_:=_]>]; the loops over it run over the indices
      [0 .. MAX_DIGITS-1], as the sketch does; a loop that assigns every
      row of a [charMap] builds the list of its rows;
    - the function-local [static] variables of [displayValue] and [getKey]
      are fields of an explicit state that each call takes and returns;
    - [millis()] is an argument [now] of each call: the clock is taken to
      stand still while one call runs. *)

From Stdlib Require Import ZArith Lia Bool String Ascii.
From stdpp Require Import base list.

Local Open Scope Z_scope.

(** ** Machine integers *)

Definition UINT8_MOD : Z := 2 ^ 8.
Definition UINT32_MOD : Z := 2 ^ 32.

(** Subtraction of two [uint32_t] values, as in [millis() - lastCheck]. *)
Definition sub32 (a b : Z) : Z := (a - b) mod UINT32_MOD.

(** [x++] on a [uint8_t]. *)
Definition incr8 (x : Z) : Z := (x + 1) mod UINT8_MOD.

Definition is_uint32 (x : Z) : Prop := 0 <= x < UINT32_MOD.

(** A counted [for] loop: [n] iterations, the loop variable starting at
    [i]. *)
Fixpoint for_loop {A : Type} (body : nat -> A -> A) (i n : nat) (a : A) : A :=
  match n with
  | O => a
  | S n' => for_loop body (S i) n' (body i a)
  end.

(** ** Constants of the sketch *)

Definition LCD_ROWS : Z := 2.
Definition LCD_COLS : Z := 16.
Definition ANIMATION_FRAME_TIME : Z := 50.
Definition DISP_R : Z := 1.
Definition DISP_C : Z := 0.
Definition CHAR_ROWS : Z := 8.
Definition CHAR_COLS : Z := 5.
Definition MAX_DIGITS : nat := 8.

(** ** The glyph table *)

Definition digitsMap : list (list Z) :=
  [ [0x0e; 0x11; 0x13; 0x15; 0x19; 0x11; 0x0e; 0x00]   (* '0' *)
  ; [0x04; 0x0c; 0x04; 0x04; 0x04; 0x04; 0x0e; 0x00]   (* '1' *)
  ; [0x0e; 0x11; 0x01; 0x02; 0x04; 0x08; 0x1f; 0x00]   (* '2' *)
  ; [0x1f; 0x02; 0x04; 0x02; 0x01; 0x11; 0x0e; 0x00]   (* '3' *)
  ; [0x02; 0x06; 0x0a; 0x12; 0x1f; 0x02; 0x02; 0x00]   (* '4' *)
  ; [0x1f; 0x10; 0x1e; 0x01; 0x01; 0x11; 0x0e; 0x00]   (* '5' *)
  ; [0x06; 0x08; 0x10; 0x1e; 0x11; 0x11; 0x0e; 0x00]   (* '6' *)
  ; [0x1f; 0x11; 0x01; 0x02; 0x04; 0x04; 0x04; 0x00]   (* '7' *)
  ; [0x0e; 0x11; 0x11; 0x0e; 0x11; 0x11; 0x0e; 0x00]   (* '8' *)
  ; [0x0e; 0x11; 0x11; 0x0f; 0x01; 0x02; 0x0c; 0x00]   (* '9' *)
  ].

(** [digitsMap[d][r]].  The sketch never checks the subscripts; a read
    outside the table is undefined in C and yields [0] here.  Lemma
    [scroll_reads_in_table] shows that the animation stays inside. *)
Definition digitsMap_at (d r : Z) : Z :=
  if (0 <=? d) && (0 <=? r)
  then default 0 (digitsMap !! Z.to_nat d ≫= (.!! Z.to_nat r))
  else 0.

(** The rows [0 .. CHAR_ROWS-1] of [digitsMap[d]], what
    [memcpy(charMap, digitsMap[d], ARRAY_SIZE(charMap))] copies. *)
Definition glyph (d : Z) : list Z :=
  (λ p, digitsMap_at d p) <$> seqZ 0 CHAR_ROWS.

(** ** Per digit animation data *)

Record digitData_t := mkDigit {
  timeLastFrame : Z;      (* time the last frame started animating *)
  prev : Z;               (* numeric value for the digit *)
  curr : Z;
  index : Z;              (* animation progression index *)
  charMap : list Z        (* generated custom char bitmap *)
}.

(** Globals of a C program start zeroed. *)
Definition digit_zero : digitData_t :=
  mkDigit 0 0 0 0 (replicate (Z.to_nat CHAR_ROWS) 0).

Definition settled (d : digitData_t) : Prop := prev d = curr d.

(** The direction of a roll: which of the two branches of the animation
    code ran (the sketch prints [" UP "] or [" DWN "] there when [DEBUG]
    is set). *)
Inductive scroll_t := UP | DWN.

(** The inner loop of the "scroll up" branch: the bottom of the old digit
    from the index position, then the top of the new digit. *)
Definition scroll_up (prv cur idx : Z) : list Z :=
  (λ p, if p <? CHAR_ROWS - idx
        then digitsMap_at prv (p + idx)
        else digitsMap_at cur (p - CHAR_ROWS + idx)) <$> seqZ 0 CHAR_ROWS.

(** The inner loop of the "scroll down" branch: the bottom of the new digit
    up to the index position, then the start of the old digit. *)
Definition scroll_down (prv cur idx : Z) : list Z :=
  (λ p, if p <? idx
        then digitsMap_at cur (p + CHAR_ROWS - idx)
        else digitsMap_at prv (p - idx)) <$> seqZ 0 CHAR_ROWS.

Definition scroll (dir : scroll_t) (prv cur idx : Z) : list Z :=
  match dir with
  | UP => scroll_up prv cur idx
  | DWN => scroll_down prv cur idx
  end.

(** The test [value > valueLast] that selects the branch. *)
Definition scroll_dir (value valueLast : Z) : scroll_t :=
  if valueLast <? value then UP else DWN.

(** ** The display *)

(** Modelled from the spec: the display collaborator, the [LiquidCrystal]
    object [lcd], is not part of the sources.  Following the contract the
    spec gives for it, its state is the eight definable glyphs ([cgram]),
    the cursor, and the character cells ([ddram], [LCD_ROWS] lines of
    [LCD_COLS] codes). *)
Record lcd_t := mkLcd {
  cgram : list (list Z);
  cursor_col : Z;
  cursor_row : Z;
  ddram : list (list Z)
}.

(** Modelled from the spec: [lcd.createChar(location, charmap)] defines the
    custom glyph [location] (one of eight, hence the mask). *)
Definition lcd_createChar (location : Z) (charmap : list Z) (l : lcd_t) : lcd_t :=
  mkLcd (<[Z.to_nat (Z.land location 7) := charmap]> (cgram l))
        (cursor_col l) (cursor_row l) (ddram l).

(** Modelled from the spec: [lcd.setCursor(col, row)] moves the cursor. *)
Definition lcd_setCursor (col row : Z) (l : lcd_t) : lcd_t :=
  mkLcd (cgram l) col row (ddram l).

(** Modelled from the spec: [lcd.write(code)] stores a code in the cell
    under the cursor and moves the cursor one cell to the right. *)
Definition lcd_write (code : Z) (l : lcd_t) : lcd_t :=
  mkLcd (cgram l) (cursor_col l + 1) (cursor_row l)
        (alter (λ line, <[Z.to_nat (cursor_col l) := code]> line)
               (Z.to_nat (cursor_row l)) (ddram l)).

(** Modelled from the spec: [lcd.print(text)] writes the characters of the
    text one after the other. *)
Definition lcd_print (text : string) (l : lcd_t) : lcd_t :=
  foldl (λ l a, lcd_write (Z.of_nat (nat_of_ascii a)) l) l
        (list_ascii_of_string text).

(** Modelled from the spec: the display after
    [lcd.begin(LCD_COLS, LCD_ROWS); lcd.clear();], blank cells and the
    cursor at home. *)
Definition lcd_clear : lcd_t :=
  mkLcd (replicate 8 (replicate (Z.to_nat CHAR_ROWS) 0)) 0 0
        (replicate (Z.to_nat LCD_ROWS) (replicate (Z.to_nat LCD_COLS) 32)).

(** The code in the cell at line [row], column [col]. *)
Definition lcd_cell (row col : Z) (l : lcd_t) : option Z :=
  ddram l !! Z.to_nat row ≫= (.!! Z.to_nat col).

(** The bitmap a cell shows when it holds the code of a custom glyph. *)
Definition lcd_shown (row col : Z) (l : lcd_t) : option (list Z) :=
  lcd_cell row col l ≫= λ code, cgram l !! Z.to_nat code.

(** [updateDisplay(r, c, init)]: for each digit position create the custom
    character and, if told to, show the custom characters left to right. *)
Definition updateDisplay (r c : Z) (init : bool)
    (ds : list digitData_t) (l : lcd_t) : lcd_t :=
  for_loop
    (λ i l,
       let l := lcd_createChar (Z.of_nat i)
                  (default [] (charMap <$> ds !! (MAX_DIGITS - i - 1)%nat)) l in
       if init
       then lcd_write (Z.of_nat i) (lcd_setCursor (c + Z.of_nat i) r l)
       else l)
    0 MAX_DIGITS l.

(** ** The steps of [displayValue] on one digit *)

(** [digits[i].prev = digits[i].curr = value % 10] *)
Definition seed_digit (v : Z) (d : digitData_t) : digitData_t :=
  mkDigit (timeLastFrame d) v v (index d) (charMap d).

(** [memcpy(digits[i].charMap, digitsMap[digits[i].curr], ...)] *)
Definition load_glyph (d : digitData_t) : digitData_t :=
  mkDigit (timeLastFrame d) (prev d) (curr d) (index d) (glyph (curr d)).

(** The body of the loop of [ST_WAIT]: store the new digit and initialise
    the animation parameters. *)
Definition start_digit (v : Z) (d : digitData_t) : digitData_t :=
  mkDigit 0 (prev d) v 0 (charMap d).

(** The body of the loop of [ST_ANIM] for one digit.  The second component
    tells whether a new bitmap was made and by which branch. *)
Definition animate_digit (value valueLast now : Z) (d : digitData_t)
    : digitData_t * option scroll_t :=
  if negb (prev d =? curr d)
     && (ANIMATION_FRAME_TIME <=? sub32 now (timeLastFrame d))
  then
    let dir := scroll_dir value valueLast in
    let idx := incr8 (index d) in
    (mkDigit now
             (if CHAR_ROWS <? idx then curr d else prev d)
             (curr d)
             idx
             (scroll dir (prev d) (curr d) (index d)),
     Some dir)
  else (d, None).

(** ** The state machine *)

Inductive state_t := ST_INIT | ST_WAIT | ST_ANIM.

Definition state_eqb (a b : state_t) : bool :=
  match a, b with
  | ST_INIT, ST_INIT | ST_WAIT, ST_WAIT | ST_ANIM, ST_ANIM => true
  | _, _ => false
  end.

(** The global [digits], the statics [state] and [valueLast] of
    [displayValue], and the display. *)
Record display_t := mkDisplay {
  digits : list digitData_t;
  state : state_t;
  valueLast : Z;
  lcd : lcd_t
}.

(** What one call of [displayValue] yields: the state it leaves, for each
    digit position the branch that drew a new bitmap (if any), and the
    returned flag. *)
Record result_t := mkResult {
  after : display_t;
  frames : list (option scroll_t);
  ret : bool
}.

(** The two loops of [ST_INIT]. *)
Definition separate_init (value : Z) (ds : list digitData_t)
    : list digitData_t * Z :=
  for_loop (λ i (a : list digitData_t * Z),
              (alter (seed_digit (a.2 mod 10)) i a.1, a.2 / 10))
           0 MAX_DIGITS (ds, value).

Definition load_glyphs (ds : list digitData_t) : list digitData_t :=
  for_loop (λ i ds, alter load_glyph i ds) 0 MAX_DIGITS ds.

(** The loop of [ST_WAIT]; it consumes [value]. *)
Definition separate_digits (value : Z) (ds : list digitData_t)
    : list digitData_t * Z :=
  for_loop (λ i (a : list digitData_t * Z),
              (alter (start_digit (a.2 mod 10)) i a.1, a.2 / 10))
           0 MAX_DIGITS (ds, value).

(** The first loop of [ST_ANIM]; [bUpdate] is set when some digit got a
    new bitmap. *)
Definition animate_digits (value valueLast now : Z) (ds : list digitData_t)
    : list digitData_t * list (option scroll_t) * bool :=
  for_loop (λ i (a : list digitData_t * list (option scroll_t) * bool),
              let '(ds, fr, bUpdate) := a in
              match ds !! i with
              | Some d =>
                  let r := animate_digit value valueLast now d in
                  (<[i := r.1]> ds, fr ++ [r.2],
                   match r.2 with Some _ => true | None => bUpdate end)
              | None => (ds, fr, bUpdate)
              end)
           0 MAX_DIGITS (ds, [], false).

(** The loop that computes [allDone]; once [allDone] is false the loop
    condition stops it. *)
Definition all_done (ds : list digitData_t) : bool :=
  for_loop (λ i (allDone : bool),
              if allDone
              then allDone && match ds !! i with
                              | Some d => prev d =? curr d
                              | None => true
                              end
              else allDone)
           0 MAX_DIGITS true.

(** [case ST_ANIM], entered with the state variable [st] ([ST_ANIM], also
    when [ST_WAIT] falls through) and the current content of the parameter
    [value]. *)
Definition anim_case (value now : Z) (st : state_t) (ds : list digitData_t)
    (vl : Z) (l : lcd_t) : result_t :=
  let '(ds, fr, bUpdate) := animate_digits value vl now ds in
  let l := if bUpdate then updateDisplay DISP_R DISP_C false ds l else l in
  if all_done ds
  then mkResult (mkDisplay ds ST_WAIT value l) fr true
  else mkResult (mkDisplay ds st vl l) fr (state_eqb st ST_WAIT).

(** [displayValue(value)], called at time [now]. *)
Definition displayValue (value now : Z) (s : display_t) : result_t :=
  match state s with
  | ST_INIT =>
      let ds := load_glyphs (separate_init value (digits s)).1 in
      mkResult (mkDisplay ds ST_WAIT (valueLast s)
                          (updateDisplay DISP_R DISP_C true ds (lcd s)))
               [] true
  | ST_WAIT =>
      if negb (valueLast s =? value)
      then
        let a := separate_digits value (digits s) in
        anim_case a.2 now ST_ANIM a.1 (valueLast s) (lcd s)
      else mkResult s [] true
  | ST_ANIM =>
      anim_case value now ST_ANIM (digits s) (valueLast s) (lcd s)
  end.

(** The state at power on: zeroed globals, the display as [setup] leaves
    it. *)
Definition power_on : display_t :=
  mkDisplay (replicate MAX_DIGITS digit_zero) ST_INIT 0
            (lcd_print "Pushwheel Demo" lcd_clear).

(** A run of calls, each with the value supplied and the time of the
    call. *)
Fixpoint run (calls : list (Z * Z)) (s : display_t) : display_t :=
  match calls with
  | [] => s
  | (value, now) :: calls => run calls (after (displayValue value now s))
  end.

Fixpoint trace (calls : list (Z * Z)) (s : display_t) : list result_t :=
  match calls with
  | [] => []
  | (value, now) :: calls =>
      let r := displayValue value now s in r :: trace calls (after r)
  end.

(** ** Keys *)

Definition KEY_NONE : Z := 0.
Definition KEY_RIGHT : Z := 1.
Definition KEY_UP : Z := 2.
Definition KEY_DOWN : Z := 3.
Definition KEY_LEFT : Z := 4.
Definition KEY_SELECT : Z := 5.

Module keyDef.
Record t := mk { adcThreshold : Z; id : Z }.
End keyDef.

Definition keyDefTable : list keyDef.t :=
  [ keyDef.mk 760 KEY_SELECT
  ; keyDef.mk 535 KEY_LEFT
  ; keyDef.mk 360 KEY_DOWN
  ; keyDef.mk 160 KEY_UP
  ; keyDef.mk 60 KEY_RIGHT ].

(** The [for] loop of [getKey] with its [break]. *)
Fixpoint scan_keys (input : Z) (table : list keyDef.t) (key : Z) : Z :=
  match table with
  | [] => key
  | k :: table =>
      if input <? keyDef.adcThreshold k
      then scan_keys input table (keyDef.id k)
      else key
  end.

(** [getKey(input)] called at time [now]; the static [lastCheck] is passed
    in and returned. *)
Definition getKey (input now lastCheck : Z) : Z * Z :=
  let key := if 200 <? sub32 now lastCheck
             then scan_keys input keyDefTable KEY_NONE
             else KEY_NONE in
  (key, if negb (key =? KEY_NONE) then now else lastCheck).

(** ** The main loop *)

Record sketch_t := mkSketch {
  value_of : Z;           (* the static [value] of [loop] *)
  lastCheck_of : Z;       (* the static [lastCheck] of [getKey] *)
  display_of : display_t
}.

Definition sketch_start : sketch_t := mkSketch 12345678 0 power_on.

(** One pass of [loop()], with the sample [adc] read from the key port;
    [getKey] and [displayValue] see the same time. *)
Definition loop (adc now : Z) (s : sketch_t) : sketch_t :=
  let k := getKey adc now (lastCheck_of s) in
  let value := if k.1 =? KEY_UP then (value_of s + 1) mod UINT32_MOD
               else if k.1 =? KEY_DOWN then (value_of s - 1) mod UINT32_MOD
               else value_of s in
  mkSketch value k.2 (after (displayValue value now (display_of s))).

(** * Vocabulary of the statements *)

(** ** Loops as maps *)

(** The digits of [v] dealt out over the entries of a list, least
    significant first. *)
Fixpoint spread (f : Z -> digitData_t -> digitData_t) (v : Z)
    (ds : list digitData_t) : list digitData_t :=
  match ds with
  | [] => []
  | d :: ds => f (v mod 10) d :: spread f (v / 10) ds
  end.

Definition settledb (d : digitData_t) : bool := prev d =? curr d.

Definition drawn (fr : list (option scroll_t)) : bool :=
  existsb (λ f, match f with Some _ => true | None => false end) fr.

(** What the animation loop makes of one digit, and the frame it draws. *)
Definition next_digit (value vl now : Z) (d : digitData_t) : digitData_t :=
  (animate_digit value vl now d).1.

Definition next_frame (value vl now : Z) (d : digitData_t) : option scroll_t :=
  (animate_digit value vl now d).2.

(** ** Runs *)

(** The calls made while the animation lasts: the run stops as soon as the
    state is no longer [ST_ANIM]. *)
Fixpoint run_anim (calls : list (Z * Z)) (s : display_t) : display_t :=
  match calls with
  | [] => s
  | (value, now) :: calls =>
      match state s with
      | ST_ANIM => run_anim calls (after (displayValue value now s))
      | _ => s
      end
  end.

(** A digit put through a series of passes of the animation loop, each
    with the value, the settled value and the time of its call; the second
    component counts the passes that drew a new bitmap. *)
Fixpoint ticks (calls : list (Z * Z * Z)) (d : digitData_t)
    : digitData_t * nat :=
  match calls with
  | [] => (d, O)
  | (value, vl, now) :: calls =>
      let r := animate_digit value vl now d in
      let r' := ticks calls r.1 in
      (r'.1, ((match r.2 with Some _ => 1 | None => 0 end) + r'.2)%nat)
  end.

(** Times of calls at least one frame time apart (and within the range of
    the clock). *)
Fixpoint paced (times : list Z) : Prop :=
  match times with
  | [] => True
  | t :: times =>
      is_uint32 t
      ∧ match times with
        | [] => True
        | t' :: _ => t + ANIMATION_FRAME_TIME <= t'
        end
      ∧ paced times
  end.

Definition time_of (c : Z * Z * Z) : Z := c.2.

(** The frames of a whole roll, progress [0 .. CHAR_ROWS]. *)
Definition roll (dir : scroll_t) (prv cur : Z) : list (list Z) :=
  (λ k, scroll dir prv cur k) <$> seqZ 0 (CHAR_ROWS + 1).

(** The keys returned by a series of calls of [getKey], each with its
    sample and its time. *)
Fixpoint keys (calls : list (Z * Z)) (lastCheck : Z) : list Z :=
  match calls with
  | [] => []
  | (input, now) :: calls =>
      let r := getKey input now lastCheck in r.1 :: keys calls r.2
  end.

(** The main loop run over a series of samples of the key port, each with
    its time. *)
Fixpoint loops (samples : list (Z * Z)) (s : sketch_t) : sketch_t :=
  match samples with
  | [] => s
  | (adc, now) :: samples => loops samples (loop adc now s)
  end.

(** A subscript pair inside [digitsMap]. *)
Definition in_table (d r : Z) : Prop := 0 <= d <= 9 ∧ 0 <= r < CHAR_ROWS.

(** ** The display once the digits are placed *)

(** The cells of the display once the digits have been placed: the title of
    [setup] on the first line, the custom characters [0 .. 7] on the
    second. *)
Definition screen_ready : list (list Z) :=
  Eval vm_compute in ddram (updateDisplay DISP_R DISP_C true [] (lcd power_on)).

(** ** Reachable states and their invariant *)

Inductive reachable : display_t -> Prop :=
  | reach_power_on : reachable power_on
  | reach_call s value now :
      reachable s -> is_uint32 value -> is_uint32 now ->
      reachable (after (displayValue value now s)).

Definition digit_ok (d : digitData_t) : Prop :=
  0 <= prev d <= 9 ∧ 0 <= curr d <= 9 ∧ 0 <= index d <= 9
  ∧ (prev d ≠ curr d -> index d <= 8)
  ∧ (prev d = curr d -> charMap d = glyph (curr d))
  ∧ is_uint32 (timeLastFrame d).

Record Inv (s : display_t) : Prop := mkInv {
  inv_len : length (digits s) = MAX_DIGITS;
  inv_digits : state s ≠ ST_INIT -> Forall digit_ok (digits s);
  inv_wait : state s = ST_WAIT -> Forall settled (digits s);
  inv_init : state s = ST_INIT -> s = power_on;
  inv_cgram : state s ≠ ST_INIT ->
              cgram (lcd s) = charMap <$> reverse (digits s);
  inv_ddram : state s ≠ ST_INIT -> ddram (lcd s) = screen_ready;
  inv_valueLast : is_uint32 (valueLast s)
}.

(** ** Vocabulary of the further properties *)

(** The decimal digit of [v] at position [i]. *)
Definition digit_at (v : Z) (i : nat) : Z := (v / 10 ^ Z.of_nat i) mod 10.

(** Every digit is settled on the digit of [v] at its position. *)
Definition shows (v : Z) (ds : list digitData_t) : Prop :=
  forall (i : nat) d, ds !! i = Some d ->
                      prev d = curr d ∧ curr d = digit_at v i.

(** Every digit is bound for the digit of [v] at its position, and those
    not yet settled are all at index [k] with their last frame at [t]. *)
Definition rolling (v k t : Z) (ds : list digitData_t) : Prop :=
  forall (i : nat) d, ds !! i = Some d ->
    curr d = digit_at v i
    ∧ (prev d = curr d ∨ (index d = k ∧ timeLastFrame d = t)).

(** A bitmap the display can take: [CHAR_ROWS] rows of [CHAR_COLS] bits. *)
Definition wf_bitmap (b : list Z) : Prop :=
  length b = Z.to_nat CHAR_ROWS ∧ Forall (λ x, 0 <= x < 2 ^ CHAR_COLS) b.

(** All the subscripts the two scroll loops use for the digits [prv] and
    [cur] at index [idx] lie inside [digitsMap]. *)
Definition rows_in_table (prv cur idx : Z) : Prop :=
  forall p, 0 <= p < CHAR_ROWS ->
    (if p <? CHAR_ROWS - idx
     then in_table prv (p + idx) else in_table cur (p - CHAR_ROWS + idx))
    ∧ (if p <? idx
       then in_table cur (p + CHAR_ROWS - idx) else in_table prv (p - idx)).

(** The bitmap a call draws for digit position [i], if it draws one, and
    the bitmaps a series of calls draws for it, in order. *)
Definition bitmap_drawn (i : nat) (r : result_t) : list (list Z) :=
  match frames r !! i with
  | Some (Some _) => default [] ((λ d, [charMap d]) <$> digits (after r) !! i)
  | _ => []
  end.

Definition bitmaps_drawn (i : nat) (tr : list result_t) : list (list Z) :=
  concat (bitmap_drawn i <$> tr).

(** ** Scenarios *)

(** The times [t, t + step, ...], [n] of them. *)
Definition every (step t : Z) (n : nat) : list Z :=
  (λ k, t + step * Z.of_nat k) <$> seq 0 n.

(** Start with 12345678, then ask for 12345679 every 50 ms until the roll
    is over. *)
Definition calls_to_12345679 : list (Z * Z) :=
  (12345678, 0) :: ((λ t, (12345679, t)) <$> every 50 1000 9).

Definition shown_12345679 : display_t :=
  Eval vm_compute in run calls_to_12345679 power_on.

(** The state one call into the roll from 12345679 to 12345680: the call
    at 2000 ms has found the new value and drawn the first frame. *)
Definition rolling_to_12345680 : display_t :=
  Eval vm_compute in after (displayValue 12345680 2000 shown_12345679).

(** The main loop polled every 10 ms for 2 s; the UP key (sample 100) is
    held from 300 ms to 560 ms, nothing is pressed otherwise (sample
    1023). *)
Definition up_held_260ms : list (Z * Z) :=
  (λ t, (if (300 <=? t) && (t <=? 560) then 100 else 1023, t))
    <$> every 10 0 200.

(** * Properties *)

(** ** Examples *)

Example glyph_8 : glyph 8 = [14; 17; 17; 14; 17; 17; 14; 0].
Proof. reflexivity. Qed.

Example scroll_up_8_9_3 :
  scroll_up 8 9 3 = [14; 17; 17; 14; 0; 14; 17; 17].
Proof. reflexivity. Qed.

Example scroll_down_8_9_3 :
  scroll_down 8 9 3 = [2; 12; 0; 14; 17; 17; 14; 17].
Proof. reflexivity. Qed.


(** ** The loops over the digit positions

    Each loop of the sketch visits the positions [0 .. MAX_DIGITS-1] and
    touches only the position it visits, so on an array of [MAX_DIGITS]
    entries it acts as a map.  The lemmas are stated for a loop that runs
    over the middle part of [pre ++ mid ++ post]. *)

Section Loops.
Context {A : Type}.
Implicit Types (pre mid post : list A).

Lemma app_cons_shift pre (x : A) rest :
  pre ++ x :: rest = (pre ++ [x]) ++ rest.
Proof. by rewrite <- app_assoc. Qed.

Lemma length_snoc pre (x : A) : length (pre ++ [x]) = S (length pre).
Proof. rewrite length_app. simpl. lia. Qed.

Lemma map_loop (f : A -> A) mid : forall pre post,
  for_loop (λ i l, alter f i l) (length pre) (length mid)
           (pre ++ mid ++ post)
  = pre ++ (f <$> mid) ++ post.
Proof.
  induction mid as [|x mid IH]; intros pre post; [done|].
  cbn [length for_loop].
  rewrite alter_app_r_alt by lia.
  replace (length pre - length pre)%nat with O by lia.
  cbn [alter list_alter app fmap list_fmap].
  rewrite (app_cons_shift pre (f x)), <- (length_snoc pre (f x)).
  rewrite IH. by rewrite <- app_assoc.
Qed.
End Loops.

Lemma spread_loop (f : Z -> digitData_t -> digitData_t) mid :
  forall pre post v,
    for_loop (λ i (a : list digitData_t * Z),
                (alter (f (a.2 mod 10)) i a.1, a.2 / 10))
             (length pre) (length mid) (pre ++ mid ++ post, v)
    = (pre ++ spread f v mid ++ post, v / 10 ^ Z.of_nat (length mid)).
Proof.
  induction mid as [|x mid IH]; intros pre post v.
  - cbn. by rewrite Z.div_1_r.
  - cbn [length for_loop fst snd].
    rewrite alter_app_r_alt by lia.
    replace (length pre - length pre)%nat with O by lia.
    cbn [alter list_alter app spread].
    rewrite (app_cons_shift pre (f (v mod 10) x)), <- (length_snoc pre (f (v mod 10) x)).
    rewrite IH. rewrite <- app_assoc. f_equal.
    rewrite Nat2Z.inj_succ, Z.pow_succ_r by lia.
    rewrite Z.div_div by lia. done.
Qed.

Lemma animate_loop value vl now mid : forall pre post fr b,
  for_loop (λ i (a : list digitData_t * list (option scroll_t) * bool),
              let '(ds, fr, bUpdate) := a in
              match ds !! i with
              | Some d =>
                  let r := animate_digit value vl now d in
                  (<[i := r.1]> ds, fr ++ [r.2],
                   match r.2 with Some _ => true | None => bUpdate end)
              | None => (ds, fr, bUpdate)
              end)
           (length pre) (length mid) (pre ++ mid ++ post, fr, b)
  = (pre ++ ((λ d, (animate_digit value vl now d).1) <$> mid) ++ post,
     fr ++ ((λ d, (animate_digit value vl now d).2) <$> mid),
     b || drawn ((λ d, (animate_digit value vl now d).2) <$> mid)).
Proof.
  induction mid as [|x mid IH]; intros pre post fr b.
  - cbn. by rewrite app_nil_r, orb_false_r.
  - cbn [length for_loop].
    change ((x :: mid) ++ post) with (x :: mid ++ post).
    rewrite list_lookup_middle by done.
    rewrite insert_app_r_alt by lia.
    replace (length pre - length pre)%nat with O by lia.
    cbn [insert list_insert app fmap list_fmap].
    rewrite (app_cons_shift pre (animate_digit value vl now x).1),
      <- (length_snoc pre (animate_digit value vl now x).1).
    rewrite IH. rewrite <- !app_assoc. cbn [app drawn existsb].
    f_equal.
    destruct (animate_digit value vl now x).2; cbn;
      by rewrite ?orb_true_r.
Qed.

Lemma all_done_loop mid : forall (pre post : list digitData_t) b,
  for_loop (λ i (allDone : bool),
              if allDone
              then allDone && match (pre ++ mid ++ post) !! i with
                              | Some d => prev d =? curr d
                              | None => true
                              end
              else allDone)
           (length pre) (length mid) b
  = b && forallb settledb mid.
Proof.
  induction mid as [|x mid IH]; intros pre post b.
  - cbn. by rewrite andb_true_r.
  - cbn [length for_loop forallb].
    change ((x :: mid) ++ post) with (x :: mid ++ post).
    rewrite list_lookup_middle by done.
    specialize (IH (pre ++ [x]) post).
    rewrite length_snoc, <- app_assoc in IH. cbn [app] in IH.
    rewrite IH. unfold settledb. by destruct b, (prev x =? curr x).
Qed.

Section WholeArray.
Variable ds : list digitData_t.
Hypothesis Hlen : length ds = MAX_DIGITS.

Lemma separate_init_eq v :
  separate_init v ds = (spread seed_digit v ds, v / 10 ^ 8).
Proof.
  unfold separate_init. rewrite <- Hlen.
  pose proof (spread_loop seed_digit ds [] [] v) as H.
  rewrite !app_nil_r in H. cbn [app length] in H.
  rewrite H, Hlen. done.
Qed.

Lemma separate_digits_eq v :
  separate_digits v ds = (spread start_digit v ds, v / 10 ^ 8).
Proof.
  unfold separate_digits. rewrite <- Hlen.
  pose proof (spread_loop start_digit ds [] [] v) as H.
  rewrite !app_nil_r in H. cbn [app length] in H.
  rewrite H, Hlen. done.
Qed.

Lemma load_glyphs_eq : load_glyphs ds = load_glyph <$> ds.
Proof.
  unfold load_glyphs. rewrite <- Hlen.
  pose proof (map_loop load_glyph ds [] []) as H.
  rewrite !app_nil_r in H. cbn [app length] in H. exact H.
Qed.

Lemma animate_digits_eq value vl now :
  animate_digits value vl now ds
  = ((λ d, (animate_digit value vl now d).1) <$> ds,
     (λ d, (animate_digit value vl now d).2) <$> ds,
     drawn ((λ d, (animate_digit value vl now d).2) <$> ds)).
Proof.
  unfold animate_digits. rewrite <- Hlen.
  pose proof (animate_loop value vl now ds [] [] [] false) as H.
  rewrite !app_nil_r in H. cbn [app length orb] in H. exact H.
Qed.

Lemma all_done_eq : all_done ds = forallb settledb ds.
Proof.
  unfold all_done. rewrite <- Hlen.
  pose proof (all_done_loop ds [] [] true) as H.
  rewrite !app_nil_r in H. cbn [app length andb] in H. exact H.
Qed.
End WholeArray.

(** ** The display after [updateDisplay] *)

Lemma updateDisplay_cgram r c init ds l :
  length ds = MAX_DIGITS -> length (cgram l) = 8%nat ->
  cgram (updateDisplay r c init ds l) = charMap <$> reverse ds.
Proof.
  intros Hds Hcg. destruct l as [cg cc cr dd]. cbn [cgram] in Hcg.
  do 9 (destruct ds as [|? ds]; try discriminate Hds).
  do 9 (destruct cg as [|? cg]; try discriminate Hcg).
  destruct init; reflexivity.
Qed.

Lemma updateDisplay_ddram r c ds l :
  ddram (updateDisplay r c false ds l) = ddram l.
Proof. reflexivity. Qed.

Lemma updateDisplay_init_ddram ds l :
  ddram l = ddram (lcd power_on) ->
  ddram (updateDisplay DISP_R DISP_C true ds l) = screen_ready.
Proof.
  destruct l as [cg cc cr dd]. cbn [ddram]. intros ->. reflexivity.
Qed.

Lemma screen_ready_cell (i : nat) :
  (i < MAX_DIGITS)%nat ->
  screen_ready !! Z.to_nat DISP_R ≫= (.!! Z.to_nat (DISP_C + Z.of_nat i))
  = Some (Z.of_nat i).
Proof.
  intros Hi. do 8 (destruct i as [|i]; [reflexivity|]).
  unfold MAX_DIGITS in Hi. lia.
Qed.

(** ** One digit *)

Lemma animate_digit_settled value vl now d :
  prev d = curr d -> animate_digit value vl now d = (d, None).
Proof.
  intros H. unfold animate_digit. rewrite H, Z.eqb_refl. reflexivity.
Qed.

Lemma animate_digit_early value vl now d :
  sub32 now (timeLastFrame d) < ANIMATION_FRAME_TIME ->
  animate_digit value vl now d = (d, None).
Proof.
  intros H. unfold animate_digit.
  destruct (ANIMATION_FRAME_TIME <=? sub32 now (timeLastFrame d)) eqn:E.
  - apply Z.leb_le in E. lia.
  - by rewrite andb_false_r.
Qed.

Lemma animate_digit_fires value vl now d :
  prev d ≠ curr d ->
  ANIMATION_FRAME_TIME <= sub32 now (timeLastFrame d) ->
  animate_digit value vl now d
  = (mkDigit now
             (if CHAR_ROWS <? incr8 (index d) then curr d else prev d)
             (curr d) (incr8 (index d))
             (scroll (scroll_dir value vl) (prev d) (curr d) (index d)),
     Some (scroll_dir value vl)).
Proof.
  intros Hne Ht. unfold animate_digit.
  apply Z.eqb_neq in Hne. apply Z.leb_le in Ht. by rewrite Hne, Ht.
Qed.

(** Every call either leaves the digit alone or draws one frame. *)
Lemma animate_digit_cases value vl now d :
  (animate_digit value vl now d = (d, None)
   ∧ (prev d = curr d ∨ sub32 now (timeLastFrame d) < ANIMATION_FRAME_TIME))
  ∨ (prev d ≠ curr d
     ∧ ANIMATION_FRAME_TIME <= sub32 now (timeLastFrame d)
     ∧ animate_digit value vl now d
       = (mkDigit now
                  (if CHAR_ROWS <? incr8 (index d) then curr d else prev d)
                  (curr d) (incr8 (index d))
                  (scroll (scroll_dir value vl) (prev d) (curr d) (index d)),
          Some (scroll_dir value vl))).
Proof.
  destruct (Z.eq_dec (prev d) (curr d)) as [He|Hne].
  - left. split; [by apply animate_digit_settled | by left].
  - destruct (Z_lt_le_dec (sub32 now (timeLastFrame d)) ANIMATION_FRAME_TIME).
    + left. split; [by apply animate_digit_early | by right].
    + right. repeat split; try done. by apply animate_digit_fires.
Qed.

Lemma next_frame_None value vl now d :
  next_frame value vl now d = None -> next_digit value vl now d = d.
Proof.
  unfold next_frame, next_digit.
  destruct (animate_digit_cases value vl now d) as [[-> _]|(_ & _ & ->)];
    [done | discriminate].
Qed.

Lemma not_drawn_same value vl now ds :
  drawn (next_frame value vl now <$> ds) = false ->
  next_digit value vl now <$> ds = ds.
Proof.
  induction ds as [|d ds IH]; [done|].
  cbn [fmap list_fmap drawn existsb]. intros H.
  apply orb_false_elim in H as [H1 H2].
  destruct (next_frame value vl now d) eqn:E; [discriminate|].
  rewrite (next_frame_None _ _ _ _ E). f_equal. by apply IH.
Qed.

(** The two ends of a roll, whatever the digits. *)
Lemma scroll_start dir prv cur : scroll dir prv cur 0 = glyph prv.
Proof. destruct dir; reflexivity. Qed.

Lemma scroll_end dir prv cur : scroll dir prv cur CHAR_ROWS = glyph cur.
Proof. destruct dir; reflexivity. Qed.

Lemma glyph_in_table d :
  0 <= d <= 9 -> digitsMap !! Z.to_nat d = Some (glyph d).
Proof.
  intros H.
  assert (d = 0 ∨ d = 1 ∨ d = 2 ∨ d = 3 ∨ d = 4 ∨ d = 5 ∨ d = 6 ∨ d = 7
          ∨ d = 8 ∨ d = 9) as Hd by lia.
  repeat (destruct Hd as [->|Hd]; [reflexivity|]). by subst.
Qed.

Lemma digitsMap_at_in_table d r :
  in_table d r ->
  digitsMap !! Z.to_nat d ≫= (.!! Z.to_nat r) = Some (digitsMap_at d r).
Proof.
  intros [Hd Hr]. unfold CHAR_ROWS in Hr.
  assert (d = 0 ∨ d = 1 ∨ d = 2 ∨ d = 3 ∨ d = 4 ∨ d = 5 ∨ d = 6 ∨ d = 7
          ∨ d = 8 ∨ d = 9) as Hd' by lia.
  assert (r = 0 ∨ r = 1 ∨ r = 2 ∨ r = 3 ∨ r = 4 ∨ r = 5 ∨ r = 6 ∨ r = 7)
    as Hr' by lia.
  clear Hd Hr.
  repeat (destruct Hd' as [->|Hd']);
    repeat (destruct Hr' as [->|Hr']); subst; reflexivity.
Qed.

(** The subscripts the two scroll loops use stay inside the table as long
    as the index is at most [CHAR_ROWS], which [digit_ok] grants for every
    digit that is not settled. *)
Lemma scroll_reads_in_table prv cur idx p :
  0 <= prv <= 9 -> 0 <= cur <= 9 -> 0 <= idx <= CHAR_ROWS ->
  0 <= p < CHAR_ROWS ->
  (if p <? CHAR_ROWS - idx
   then in_table prv (p + idx) else in_table cur (p - CHAR_ROWS + idx))
  ∧ (if p <? idx
     then in_table cur (p + CHAR_ROWS - idx) else in_table prv (p - idx)).
Proof.
  unfold in_table, CHAR_ROWS. intros Hp Hc Hi Hr. split.
  - destruct (Z.ltb_spec p (8 - idx)); lia.
  - destruct (Z.ltb_spec p idx); lia.
Qed.

(** ** Digits of a value *)

Lemma spread_lookup f v ds : forall i,
  spread f v ds !! i = f ((v / 10 ^ Z.of_nat i) mod 10) <$> ds !! i.
Proof.
  revert v. induction ds as [|d ds IH]; intros v i; [done|].
  destruct i as [|i]; cbn [spread lookup list_lookup].
  - cbn. by rewrite Z.div_1_r.
  - rewrite IH. rewrite Nat2Z.inj_succ, Z.pow_succ_r by lia.
    by rewrite Z.div_div by lia.
Qed.

Lemma length_spread f v ds : length (spread f v ds) = length ds.
Proof.
  revert v. induction ds as [|d ds IH]; intros v; [done|].
  cbn. by rewrite IH.
Qed.

Lemma Forall_spread (P Q : digitData_t -> Prop) f v ds :
  (forall k d, 0 <= k <= 9 -> P d -> Q (f k d)) ->
  Forall P ds -> Forall Q (spread f v ds).
Proof.
  intros Hf H. revert v. induction H as [|d ds Hd _ IH]; intros v; cbn.
  - constructor.
  - constructor; [|apply IH].
    apply Hf; [|done]. pose proof (Z.mod_pos_bound v 10). lia.
Qed.

Lemma spread_start_charMap v ds :
  charMap <$> spread start_digit v ds = charMap <$> ds.
Proof.
  revert v. induction ds as [|d ds IH]; intros v; [done|].
  cbn. by rewrite IH.
Qed.

(** High digits do not reach the array. *)
Lemma digit_truncated v (i : nat) :
  (i < MAX_DIGITS)%nat ->
  ((v mod 10 ^ 8) / 10 ^ Z.of_nat i) mod 10 = (v / 10 ^ Z.of_nat i) mod 10.
Proof.
  intros Hi. unfold MAX_DIGITS in Hi.
  assert (10 ^ 8 = 10 ^ Z.of_nat i * (10 * 10 ^ Z.of_nat (7 - i))) as E.
  { rewrite <- Z.pow_succ_r, <- Z.pow_add_r by lia. f_equal. lia. }
  rewrite E.
  assert (0 < 10 ^ Z.of_nat i) by (apply Z.pow_pos_nonneg; lia).
  assert (0 < 10 ^ Z.of_nat (7 - i)) by (apply Z.pow_pos_nonneg; lia).
  rewrite Z.rem_mul_r by lia.
  rewrite (Z.mul_comm (10 ^ Z.of_nat i)), Z.div_add by lia.
  rewrite Z.div_small by (apply Z.mod_pos_bound; lia).
  rewrite Z.add_0_l.
  rewrite Z.rem_mul_r by lia.
  rewrite (Z.mul_comm 10), Z.mod_add by lia.
  by rewrite Z.mod_mod by lia.
Qed.

(** ** The invariant holds in every reachable state *)

Lemma anim_case_eq value now st ds vl l :
  length ds = MAX_DIGITS ->
  anim_case value now st ds vl l
  = let ds' := next_digit value vl now <$> ds in
    let fr := next_frame value vl now <$> ds in
    let l' := if drawn fr then updateDisplay DISP_R DISP_C false ds' l else l in
    if forallb settledb ds'
    then mkResult (mkDisplay ds' ST_WAIT value l') fr true
    else mkResult (mkDisplay ds' st vl l') fr (state_eqb st ST_WAIT).
Proof.
  intros Hlen. unfold anim_case.
  rewrite (animate_digits_eq ds Hlen).
  rewrite all_done_eq by (by rewrite length_fmap). reflexivity.
Qed.

Lemma forallb_settled ds : forallb settledb ds = true -> Forall settled ds.
Proof.
  induction ds as [|d ds IH]; cbn; [constructor|].
  intros H. apply andb_prop in H as [H1 H2].
  constructor; [by apply Z.eqb_eq | by apply IH].
Qed.

Lemma next_digit_ok value vl now d :
  is_uint32 now -> digit_ok d -> digit_ok (next_digit value vl now d).
Proof.
  intros Hnow (Hp & Hc & Hi & Hi8 & Hg & Ht). unfold next_digit.
  destruct (animate_digit_cases value vl now d) as [[-> _]|(Hne & _ & ->)].
  - done.
  - specialize (Hi8 Hne). cbn [fst].
    assert (incr8 (index d) = index d + 1) as ->.
    { unfold incr8, UINT8_MOD. apply Z.mod_small. lia. }
    unfold digit_ok, CHAR_ROWS. cbn [prev curr index charMap timeLastFrame].
    destruct (Z.ltb_spec 8 (index d + 1)).
    + repeat split; try lia; try apply Hnow. intros _.
      replace (index d) with CHAR_ROWS by (unfold CHAR_ROWS; lia).
      apply scroll_end.
    + repeat split; try lia; try apply Hnow; done.
Qed.

Lemma anim_case_Inv value now ds vl l :
  length ds = MAX_DIGITS -> Forall digit_ok ds ->
  cgram l = charMap <$> reverse ds -> ddram l = screen_ready ->
  is_uint32 value -> is_uint32 vl -> is_uint32 now ->
  Inv (after (anim_case value now ST_ANIM ds vl l)).
Proof.
  intros Hlen Hok Hcg Hdd Hv Hvl Hnow.
  rewrite anim_case_eq by done. cbv zeta.
  set (ds' := next_digit value vl now <$> ds).
  set (fr := next_frame value vl now <$> ds).
  assert (length ds' = MAX_DIGITS) as Hlen' by (by unfold ds'; rewrite length_fmap).
  assert (Forall digit_ok ds') as Hok'.
  { unfold ds'. apply Forall_fmap. eapply Forall_impl; [exact Hok|].
    intros d Hd. by apply next_digit_ok. }
  assert (cgram (if drawn fr then updateDisplay DISP_R DISP_C false ds' l else l)
          = charMap <$> reverse ds') as Hcg'.
  { destruct (drawn fr) eqn:E.
    - apply updateDisplay_cgram; [done|].
      rewrite Hcg, length_fmap, length_reverse. done.
    - unfold ds', fr in *. by rewrite not_drawn_same. }
  assert (ddram (if drawn fr then updateDisplay DISP_R DISP_C false ds' l else l)
          = screen_ready) as Hdd'.
  { destruct (drawn fr); [by rewrite updateDisplay_ddram | done]. }
  destruct (forallb settledb ds') eqn:E; cbn [after];
    constructor; cbn [digits state valueLast lcd]; try done.
  intros _. by apply forallb_settled.
Qed.

Lemma power_on_Inv : Inv power_on.
Proof.
  by constructor.
Qed.

Lemma displayValue_Inv value now s :
  Inv s -> is_uint32 value -> is_uint32 now ->
  Inv (after (displayValue value now s)).
Proof.
  intros [Hlen Hok Hwait Hinit Hcg Hdd Hvl] Hv Hnow.
  unfold displayValue. destruct (state s) eqn:Hst.
  - (* ST_INIT *)
    rewrite (Hinit eq_refl). cbn [digits power_on valueLast lcd].
    rewrite separate_init_eq by done. cbn [fst].
    rewrite load_glyphs_eq by (by rewrite length_spread).
    cbn [after].
    set (ds := load_glyph <$> _).
    assert (length ds = MAX_DIGITS) as Hlen'
      by (unfold ds; by rewrite length_fmap, length_spread).
    constructor; cbn [digits state valueLast lcd]; try done.
    + intros _. unfold ds. apply Forall_fmap.
      eapply (Forall_spread (λ d, index d = 0 ∧ timeLastFrame d = 0));
        [|by apply Forall_replicate].
      intros k d Hk [Hi Ht]. unfold digit_ok, is_uint32, UINT32_MOD. cbn.
      rewrite Hi, Ht. repeat split; lia.
    + intros _. unfold ds. apply Forall_fmap.
      eapply (Forall_spread (λ _, True)); [|by apply Forall_true].
      intros k d Hk _. reflexivity.
  - (* ST_WAIT *)
    destruct (valueLast s =? value) eqn:E; cbn [negb].
    + cbn [after]. by constructor; rewrite ?Hst.
    + rewrite separate_digits_eq by done. cbn [fst snd].
      assert (ST_WAIT ≠ ST_INIT) as Hn by discriminate.
      apply anim_case_Inv; try done.
      * by rewrite length_spread.
      * specialize (Hwait eq_refl). specialize (Hok Hn).
        assert (Forall (λ d, digit_ok d ∧ settled d) (digits s)) as Hboth
          by (by apply Forall_and).
        eapply Forall_spread; [|exact Hboth].
        intros k d Hk [(Hp & Hc & Hi & Hi8 & Hg & Ht) Hs].
        unfold digit_ok, start_digit, is_uint32, UINT32_MOD. cbn.
        repeat split; try lia.
        intros <-. rewrite Hs. by apply Hg.
      * rewrite fmap_reverse, spread_start_charMap, <- fmap_reverse.
        by apply Hcg.
      * by apply Hdd.
      * unfold is_uint32, UINT32_MOD in *. split.
        -- apply Z.div_pos; lia.
        -- apply Z.div_lt_upper_bound; lia.
  - (* ST_ANIM *)
    assert (ST_ANIM ≠ ST_INIT) as Hn by discriminate.
    apply anim_case_Inv; try done; [by apply Hok | by apply Hcg | by apply Hdd].
Qed.

Lemma reachable_Inv s : reachable s -> Inv s.
Proof.
  induction 1 as [|s value now _ IH Hv Hnow].
  - apply power_on_Inv.
  - by apply displayValue_Inv.
Qed.

(** ** The calls of [displayValue], case by case *)

Lemma anim_case_digits value now st ds vl l :
  length ds = MAX_DIGITS ->
  digits (after (anim_case value now st ds vl l))
  = next_digit value vl now <$> ds.
Proof.
  intros H. rewrite anim_case_eq by done. cbv zeta.
  by destruct (forallb settledb _).
Qed.

Lemma anim_case_frames value now st ds vl l :
  length ds = MAX_DIGITS ->
  frames (anim_case value now st ds vl l) = next_frame value vl now <$> ds.
Proof.
  intros H. rewrite anim_case_eq by done. cbv zeta.
  by destruct (forallb settledb _).
Qed.

Lemma displayValue_init value now s :
  state s = ST_INIT -> length (digits s) = MAX_DIGITS ->
  digits (after (displayValue value now s))
  = load_glyph <$> spread seed_digit value (digits s).
Proof.
  intros Hst Hlen. unfold displayValue. rewrite Hst. cbn [after digits].
  rewrite separate_init_eq by done. cbn [fst].
  by rewrite load_glyphs_eq by (by rewrite length_spread).
Qed.

Lemma displayValue_accept value now s :
  state s = ST_WAIT -> valueLast s ≠ value ->
  length (digits s) = MAX_DIGITS ->
  displayValue value now s
  = anim_case (value / 10 ^ 8) now ST_ANIM
              (spread start_digit value (digits s)) (valueLast s) (lcd s).
Proof.
  intros Hst Hv Hlen. unfold displayValue. rewrite Hst.
  apply Z.eqb_neq in Hv. rewrite Hv. cbn [negb].
  by rewrite separate_digits_eq.
Qed.

Lemma displayValue_anim value now s :
  state s = ST_ANIM ->
  displayValue value now s
  = anim_case value now ST_ANIM (digits s) (valueLast s) (lcd s).
Proof. intros Hst. unfold displayValue. by rewrite Hst. Qed.

Lemma displayValue_length value now s :
  length (digits s) = MAX_DIGITS ->
  length (digits (after (displayValue value now s))) = MAX_DIGITS.
Proof.
  intros Hlen. destruct (state s) eqn:Hst.
  - rewrite displayValue_init by done.
    by rewrite length_fmap, length_spread.
  - destruct (Z.eq_dec (valueLast s) value) as [He|Hne].
    + unfold displayValue. by rewrite Hst, He, Z.eqb_refl.
    + rewrite displayValue_accept by done.
      rewrite anim_case_digits by (by rewrite length_spread).
      by rewrite length_fmap, length_spread.
  - rewrite displayValue_anim by done.
    rewrite anim_case_digits by done. by rewrite length_fmap.
Qed.

Lemma reachable_run calls : forall s,
  reachable s ->
  Forall (λ c : Z * Z, is_uint32 c.1 ∧ is_uint32 c.2) calls ->
  reachable (run calls s).
Proof.
  induction calls as [|[v t] calls IH]; intros s Hs Hc; [done|].
  apply Forall_cons in Hc as [[Hv Ht] Hc]. cbn [run].
  apply IH; [|done]. by constructor.
Qed.

Lemma shown_12345679_reachable : reachable shown_12345679.
Proof.
  assert (shown_12345679 = run calls_to_12345679 power_on) as ->
    by (vm_compute; reflexivity).
  apply reachable_run; [constructor|].
  cbv [calls_to_12345679 every fmap list_fmap seq].
  repeat constructor; cbn [fst snd]; unfold UINT32_MOD; lia.
Qed.

(** ** The ends of a roll *)

(** C10: for both directions the bitmap blended at progress 0 is the table
    glyph of the previous digit and the bitmap blended at progress
    [CHAR_ROWS] is the table glyph of the current digit; so the frame drawn
    for a digit at index 0 shows the old digit again, and the frame drawn at
    index [CHAR_ROWS] shows the final digit and settles the digit. *)
Theorem scroll_first_last value vl now d dir :
  0 <= prev d <= 9 -> 0 <= curr d <= 9 -> prev d ≠ curr d ->
  ANIMATION_FRAME_TIME <= sub32 now (timeLastFrame d) ->
  (digitsMap !! Z.to_nat (prev d) = Some (scroll dir (prev d) (curr d) 0)
   ∧ digitsMap !! Z.to_nat (curr d)
     = Some (scroll dir (prev d) (curr d) CHAR_ROWS))
  ∧ (index d = 0 ->
     next_frame value vl now d ≠ None
     ∧ digitsMap !! Z.to_nat (prev d)
       = Some (charMap (next_digit value vl now d)))
  ∧ (index d = CHAR_ROWS ->
     next_frame value vl now d ≠ None
     ∧ digitsMap !! Z.to_nat (curr d)
       = Some (charMap (next_digit value vl now d))
     ∧ settled (next_digit value vl now d)).
Proof.
  intros Hp Hc Hne Ht.
  unfold next_digit, next_frame.
  rewrite (animate_digit_fires value vl now d Hne Ht). cbn [fst snd charMap].
  split; [split|split].
  - rewrite scroll_start. by apply glyph_in_table.
  - rewrite scroll_end. by apply glyph_in_table.
  - intros Hidx. split; [discriminate|].
    rewrite Hidx, scroll_start. by apply glyph_in_table.
  - intros Hidx. split; [discriminate|]. split.
    + rewrite Hidx, scroll_end. by apply glyph_in_table.
    + unfold settled. cbn [prev curr]. by rewrite Hidx.
Qed.

Lemma scroll_first_last_witness :
  digitsMap !! 8%nat = Some (scroll UP 8 9 0)
  ∧ digitsMap !! 9%nat = Some (scroll UP 8 9 CHAR_ROWS).
Proof.
  apply (scroll_first_last 12345679 12345678 1000
           (mkDigit 0 8 9 0 (glyph 8)) UP); cbn; try lia.
  vm_compute. discriminate.
Defined.

(** ** Rolling up and rolling down *)

Lemma scroll_down_up_swap prv cur k :
  scroll DWN prv cur k = scroll UP cur prv (CHAR_ROWS - k).
Proof.
  cbn [scroll]. unfold scroll_down, scroll_up.
  apply list_fmap_ext. intros _ p _.
  replace (CHAR_ROWS - (CHAR_ROWS - k)) with k by lia.
  destruct (p <? k); f_equal; lia.
Qed.

Lemma distinct_digits_share_no_frame :
  Forall (λ a,
    Forall (λ b,
      a ≠ b ->
      Forall (λ k, (scroll UP a b k ∉ roll DWN a b)
                   ∧ (scroll DWN a b k ∉ roll UP a b))
             (seqZ 1 (CHAR_ROWS - 1)))
      (seqZ 0 10))
    (seqZ 0 10).
Proof.
  apply (bool_decide_unpack _). vm_compute. exact I.
Qed.

(** C4, as the sketch has it: the downward roll of (previous, current) at
    progress k is the upward roll of the swapped pair (current, previous) at
    progress [CHAR_ROWS - k], so the downward sequence of a pair is the
    upward sequence of the swapped pair reversed; at progress k both
    directions take [CHAR_ROWS - k] rows of the previous glyph and k rows of
    the current glyph, the upward roll the bottom of the previous glyph
    followed by the top of the current one, the downward roll the bottom of
    the current glyph followed by the top of the previous one.  For a pair
    of two different digits the two directions share no bitmap strictly
    between the ends of the roll; for a pair of twice the same digit the
    downward sequence is the upward sequence reversed. *)
Theorem roll_down_mirrors_swapped_up prv cur k :
  0 <= k <= CHAR_ROWS ->
  scroll DWN prv cur k = scroll UP cur prv (CHAR_ROWS - k)
  ∧ roll DWN prv cur = reverse (roll UP cur prv)
  ∧ scroll UP prv cur k
    = drop (Z.to_nat k) (glyph prv) ++ take (Z.to_nat k) (glyph cur)
  ∧ scroll DWN prv cur k
    = drop (Z.to_nat (CHAR_ROWS - k)) (glyph cur)
      ++ take (Z.to_nat (CHAR_ROWS - k)) (glyph prv)
  ∧ (0 <= prv <= 9 -> 0 <= cur <= 9 -> prv ≠ cur -> 0 < k < CHAR_ROWS ->
     (scroll UP prv cur k ∉ roll DWN prv cur)
     ∧ (scroll DWN prv cur k ∉ roll UP prv cur))
  ∧ (prv = cur -> roll DWN prv cur = reverse (roll UP prv cur)).
Proof.
  intros Hk. split; [apply scroll_down_up_swap|].
  split; [reflexivity|].
  assert (scroll UP prv cur k
          = drop (Z.to_nat k) (glyph prv) ++ take (Z.to_nat k) (glyph cur)
          ∧ scroll DWN prv cur k
            = drop (Z.to_nat (CHAR_ROWS - k)) (glyph cur)
              ++ take (Z.to_nat (CHAR_ROWS - k)) (glyph prv)) as [H1 H2].
  { unfold CHAR_ROWS in Hk.
    assert (k = 0 ∨ k = 1 ∨ k = 2 ∨ k = 3 ∨ k = 4 ∨ k = 5 ∨ k = 6 ∨ k = 7
            ∨ k = 8) as Hc by lia.
    repeat (destruct Hc as [->|Hc]; [split; reflexivity|]).
    subst k. split; reflexivity. }
  split; [exact H1|]. split; [exact H2|]. split.
  - intros Hp Hc Hne Hk'.
    pose proof distinct_digits_share_no_frame as H.
    rewrite Forall_forall in H.
    specialize (H prv). rewrite elem_of_seqZ in H.
    specialize (H ltac:(lia)). rewrite Forall_forall in H.
    specialize (H cur). rewrite elem_of_seqZ in H.
    specialize (H ltac:(lia) Hne). rewrite Forall_forall in H.
    apply (H k). rewrite elem_of_seqZ. lia.
  - intros ->. reflexivity.
Qed.

Lemma roll_down_mirrors_swapped_up_witness :
  scroll DWN 0 1 3 = scroll UP 1 0 (CHAR_ROWS - 3)
  ∧ roll DWN 0 1 = reverse (roll UP 1 0)
  ∧ scroll UP 0 1 3 = drop 3 (glyph 0) ++ take 3 (glyph 1)
  ∧ scroll DWN 0 1 3 = drop 5 (glyph 1) ++ take 5 (glyph 0)
  ∧ (scroll UP 0 1 3 ∉ roll DWN 0 1)
  ∧ (scroll DWN 0 1 3 ∉ roll UP 0 1).
Proof.
  destruct (roll_down_mirrors_swapped_up 0 1 3) as (H1 & H2 & H3 & H4 & H5 & _).
  - unfold CHAR_ROWS. lia.
  - destruct H5 as [H5 H6]; try (unfold CHAR_ROWS; lia).
    repeat split; assumption.
Defined.

(** C4 as stated fails: for the pair (0, 1) none of the bitmaps the upward
    roll passes through strictly between its ends occurs anywhere in the
    downward roll of the same pair, and the downward roll is neither the
    upward roll nor the upward roll reversed. *)
Lemma same_pair_rolls_share_no_frame :
  Forall (λ k, scroll UP 0 1 k ∉ roll DWN 0 1) (seqZ 1 (CHAR_ROWS - 1))
  ∧ roll DWN 0 1 ≠ reverse (roll UP 0 1)
  ∧ roll DWN 0 1 ≠ roll UP 0 1.
Proof.
  apply (bool_decide_unpack _). vm_compute. exact I.
Qed.

(** ** Keys *)

Lemma getKey_blocked input now lastCheck :
  sub32 now lastCheck <= 200 ->
  getKey input now lastCheck = (KEY_NONE, lastCheck).
Proof.
  intros H. unfold getKey.
  destruct (Z.ltb_spec 200 (sub32 now lastCheck)); [lia | reflexivity].
Qed.

Lemma getKey_open input now lastCheck :
  200 < sub32 now lastCheck ->
  (getKey input now lastCheck).1 = scan_keys input keyDefTable KEY_NONE.
Proof.
  intros H. unfold getKey.
  destruct (Z.ltb_spec 200 (sub32 now lastCheck)); [reflexivity | lia].
Qed.

Lemma keys_blocked t calls :
  Forall (λ c : Z * Z, sub32 c.2 t <= 200) calls ->
  keys calls t = (λ _, KEY_NONE) <$> calls.
Proof.
  induction 1 as [|[input now] calls H _ IH]; [done|].
  cbn [keys fmap list_fmap]. cbn [snd] in H.
  rewrite (getKey_blocked input now t H). cbn [fst snd]. by rewrite IH.
Qed.

(** C8: once more than 200 ms have passed since the last accepted key,
    [getKey] returns the key in whose bracket of the descending thresholds
    the sample falls, and no key for a sample at or above the highest
    threshold; within 200 ms of the last call that returned a key every call
    returns no key whatever the sample, so two accepted keys are more than
    200 ms apart. *)
Theorem getKey_buckets_debounce input now lastCheck :
  let r := getKey input now lastCheck in
  (200 < sub32 now lastCheck ->
     (760 <= input -> r.1 = KEY_NONE)
     ∧ (535 <= input < 760 -> r.1 = KEY_SELECT)
     ∧ (360 <= input < 535 -> r.1 = KEY_LEFT)
     ∧ (160 <= input < 360 -> r.1 = KEY_DOWN)
     ∧ (60 <= input < 160 -> r.1 = KEY_UP)
     ∧ (input < 60 -> r.1 = KEY_RIGHT))
  ∧ (sub32 now lastCheck <= 200 -> r = (KEY_NONE, lastCheck))
  ∧ (r.1 = KEY_NONE -> r.2 = lastCheck)
  ∧ (r.1 ≠ KEY_NONE ->
     200 < sub32 now lastCheck
     ∧ r.2 = now
     ∧ forall calls : list (Z * Z),
         Forall (λ c, sub32 c.2 now <= 200) calls ->
         keys calls r.2 = (λ _, KEY_NONE) <$> calls).
Proof.
  cbv zeta. split; [|split; [|split]].
  - intros H. rewrite (getKey_open _ _ _ H).
    cbn [scan_keys keyDefTable keyDef.adcThreshold keyDef.id].
    repeat split; intros Hi;
      repeat match goal with
             | |- context [?a <? ?b] => destruct (Z.ltb_spec a b); try lia
             end; reflexivity.
  - apply getKey_blocked.
  - intros H. unfold getKey in *. cbn [fst snd] in *.
    rewrite H. reflexivity.
  - intros H.
    destruct (Z_le_gt_dec (sub32 now lastCheck) 200) as [Hle|Hgt].
    { rewrite (getKey_blocked _ _ _ Hle) in H. cbn in H. done. }
    assert ((getKey input now lastCheck).2 = now) as Hnow.
    { unfold getKey in *. cbn [fst snd] in *.
      apply Z.eqb_neq in H. by rewrite H. }
    split; [lia|]. split; [done|].
    intros calls Hc. rewrite Hnow. by apply keys_blocked.
Qed.

Lemma getKey_buckets_debounce_witness :
  (getKey 100 1000 0).1 = KEY_UP
  ∧ getKey 100 1200 1000 = (KEY_NONE, 1000)
  ∧ keys [(100, 1100); (400, 1200)] (getKey 100 1000 0).2
    = [KEY_NONE; KEY_NONE].
Proof.
  split; [|split].
  - apply (getKey_buckets_debounce 100 1000 0); vm_compute; done.
  - apply (getKey_buckets_debounce 100 1200 1000). vm_compute. discriminate.
  - apply (getKey_buckets_debounce 100 1000 0); [vm_compute; discriminate|].
    repeat constructor; vm_compute; discriminate.
Defined.

(** ** Polling with the settled value *)

Lemma idle_calls s v :
  state s = ST_WAIT -> valueLast s = v ->
  (forall now, displayValue v now s = mkResult s [] true)
  ∧ forall times : list Z,
      trace ((λ t, (v, t)) <$> times) s = (λ _, mkResult s [] true) <$> times
      ∧ run ((λ t, (v, t)) <$> times) s = s.
Proof.
  intros Hst Hv.
  assert (forall now, displayValue v now s = mkResult s [] true) as H1.
  { intros now. unfold displayValue. by rewrite Hst, Hv, Z.eqb_refl. }
  split; [exact H1|].
  induction times as [|t times [IH1 IH2]]; [done|].
  cbn [fmap list_fmap trace run]. rewrite H1. cbn [after].
  split; [by f_equal | done].
Qed.

Lemma all_settled_no_frame value vl now ds :
  Forall settled ds ->
  next_digit value vl now <$> ds = ds
  ∧ drawn (next_frame value vl now <$> ds) = false
  ∧ forallb settledb ds = true.
Proof.
  induction 1 as [|d ds Hd _ (IH1 & IH2 & IH3)]; [done|].
  cbn [fmap list_fmap drawn existsb forallb].
  unfold next_digit, next_frame, settledb in *.
  rewrite (animate_digit_settled _ _ _ _ Hd). cbn [fst snd].
  unfold settled in Hd. rewrite Hd, Z.eqb_refl.
  repeat split; [by f_equal | done | done].
Qed.

(** The first call does not record its value in [valueLast]; a call in
    [ST_WAIT] with a value that has the digits already shown still returns
    true, draws nothing and keeps every digit and bitmap, whatever
    [valueLast] holds. *)
Lemma idle_same_digits s value now :
  state s = ST_WAIT -> length (digits s) = MAX_DIGITS ->
  Forall settled (digits s) ->
  (forall (i : nat) d, digits s !! i = Some d ->
                       curr d = (value / 10 ^ Z.of_nat i) mod 10) ->
  let r := displayValue value now s in
  ret r = true ∧ drawn (frames r) = false ∧ state (after r) = ST_WAIT
  ∧ prev <$> digits (after r) = prev <$> digits s
  ∧ curr <$> digits (after r) = curr <$> digits s
  ∧ charMap <$> digits (after r) = charMap <$> digits s.
Proof.
  intros Hst Hlen Hall Hdig. cbv zeta.
  destruct (Z.eq_dec (valueLast s) value) as [He|Hne].
  { unfold displayValue. by rewrite Hst, He, Z.eqb_refl. }
  rewrite displayValue_accept by done.
  set (ds1 := spread start_digit value (digits s)).
  assert (length ds1 = MAX_DIGITS) as Hlen1
    by (unfold ds1; by rewrite length_spread).
  assert (forall (i : nat) d1, ds1 !! i = Some d1 ->
            exists d, digits s !! i = Some d
                      ∧ d1 = mkDigit 0 (prev d) (curr d) 0 (charMap d))
    as Hd1.
  { intros i d1. unfold ds1. rewrite spread_lookup.
    destruct (digits s !! i) as [d|] eqn:Hd; [|discriminate].
    cbn. intros [= <-]. exists d. split; [done|].
    unfold start_digit. by rewrite <- (Hdig i d Hd). }
  assert (Forall settled ds1) as Hall1.
  { apply Forall_lookup. intros i d1 Hi.
    destruct (Hd1 i d1 Hi) as (d & Hd & ->).
    rewrite Forall_lookup in Hall. exact (Hall i d Hd). }
  destruct (all_settled_no_frame (value / 10 ^ 8) (valueLast s) now ds1 Hall1)
    as (E1 & E2 & E3).
  rewrite anim_case_eq by done. cbv zeta. rewrite E1, E2, E3.
  cbn [ret frames after state digits].
  repeat split; try done; apply list_eq; intros i;
    rewrite !list_lookup_fmap;
    (destruct (ds1 !! i) as [d1|] eqn:Hi;
     [destruct (Hd1 i d1 Hi) as (d & Hd & ->); by rewrite Hd
     |apply lookup_ge_None in Hi; rewrite Hlen1, <- Hlen in Hi;
      apply lookup_ge_None in Hi; by rewrite Hi]).
Qed.

(** C7: in [ST_WAIT] with [valueLast = v], every call with the value v, at
    any time, returns true, draws nothing and leaves the whole state (every
    digit, the settled value, the display) as it was, however often it is
    repeated. *)
Theorem idle_same_value_stays s v (times : list Z) :
  state s = ST_WAIT -> valueLast s = v ->
  (forall now, displayValue v now s = mkResult s [] true)
  ∧ trace ((λ t, (v, t)) <$> times) s = (λ _, mkResult s [] true) <$> times
  ∧ run ((λ t, (v, t)) <$> times) s = s.
Proof.
  intros Hst Hv. destruct (idle_calls s v Hst Hv) as [H1 H2].
  split; [exact H1|]. apply H2.
Qed.

(** ** One digit under repeated calls *)

Lemma ticks_settled calls : forall d,
  prev d = curr d -> ticks calls d = (d, O).
Proof.
  induction calls as [|[[value vl] now] calls IH]; intros d Hd; [done|].
  cbn [ticks]. rewrite (animate_digit_settled _ _ _ _ Hd). cbn [fst snd].
  by rewrite IH.
Qed.

Lemma sub32_paced t t' :
  is_uint32 t -> is_uint32 t' -> t + ANIMATION_FRAME_TIME <= t' ->
  ANIMATION_FRAME_TIME <= sub32 t' t.
Proof.
  unfold is_uint32, sub32, ANIMATION_FRAME_TIME. intros Ht Ht' H.
  rewrite Z.mod_small; lia.
Qed.

(** A digit in mid roll with [n] frames to go finishes in [n] paced calls
    of which the first is due. *)
Lemma ticks_finish (n : nat) : forall calls d,
  prev d ≠ curr d -> index d = CHAR_ROWS + 1 - Z.of_nat n -> (1 <= n <= 9)%nat ->
  paced (time_of <$> calls) -> (n <= length calls)%nat ->
  match calls with
  | c :: _ => ANIMATION_FRAME_TIME <= sub32 (time_of c) (timeLastFrame d)
  | [] => True
  end ->
  let r := ticks calls d in
  prev r.1 = curr d ∧ curr r.1 = curr d ∧ r.2 = n
  ∧ charMap r.1 = glyph (curr d).
Proof.
  induction n as [|n IH]; intros calls d Hne Hidx Hn Hp Hlen Hdue; [lia|].
  destruct calls as [|[[value vl] now] calls]; [cbn in Hlen; lia|].
  cbn [time_of snd] in Hdue. cbv zeta. cbn [ticks].
  rewrite (animate_digit_fires value vl now d Hne Hdue). cbn [fst snd].
  unfold CHAR_ROWS in Hidx.
  assert (incr8 (index d) = index d + 1) as ->.
  { unfold incr8, UINT8_MOD. apply Z.mod_small. lia. }
  destruct (Nat.eq_dec n O) as [->|Hn0].
  - (* the last frame *)
    replace (index d) with CHAR_ROWS by (unfold CHAR_ROWS; lia).
    rewrite scroll_end.
    change (CHAR_ROWS <? CHAR_ROWS + 1) with true. cbv iota.
    rewrite ticks_settled by done. cbn. done.
  - assert ((CHAR_ROWS <? index d + 1) = false) as ->
      by (apply Z.ltb_ge; unfold CHAR_ROWS; lia).
    cbn [fmap list_fmap paced time_of snd] in Hp.
    destruct Hp as (Ht & Hnext & Hp).
    set (d1 := mkDigit now (prev d) (curr d) (index d + 1) _).
    assert (prev d1 ≠ curr d1) as Hne1 by done.
    assert (index d1 = CHAR_ROWS + 1 - Z.of_nat n) as Hidx1
      by (cbn [d1 index]; unfold CHAR_ROWS; lia).
    assert (1 <= n <= 9)%nat as Hn1 by lia.
    assert (n <= length calls)%nat as Hlen1 by (cbn in Hlen; lia).
    assert (match calls with
            | c :: _ =>
                ANIMATION_FRAME_TIME <= sub32 (time_of c) (timeLastFrame d1)
            | [] => True
            end) as Hdue1.
    { destruct calls as [|[[value' vl'] now'] calls]; [done|].
      cbn [fmap list_fmap paced time_of snd d1 timeLastFrame] in *.
      apply sub32_paced; [done | apply Hp | done]. }
    destruct (IH calls d1 Hne1 Hidx1 Hn1 Hp Hlen1 Hdue1) as (H1 & H2 & H3 & H4).
    cbn [d1 prev curr] in *. repeat split; try done. by rewrite H3.
Qed.

(** C3: a settled digit retargeted from a to b ≠ a and then run through
    calls at least 50 ms apart ends settled on b with the glyph of b, and
    exactly [CHAR_ROWS + 1] = 9 of the calls draw a bitmap: ten calls always
    suffice, nine when the first comes 50 ms or more after the clock's zero;
    a call on a settled digit, or less than 50 ms after [timeLastFrame],
    draws nothing and leaves the digit as it is, and [timeLastFrame] is the
    time of the last call that drew a frame. *)
Theorem retarget_then_ticks a b d calls :
  prev d = a -> curr d = a -> a ≠ b ->
  paced (time_of <$> calls) ->
  ((10 <= length calls)%nat
   ∨ (9 <= length calls)%nat
     ∧ match calls with
       | c :: _ => ANIMATION_FRAME_TIME <= time_of c
       | [] => True
       end) ->
  (let r := ticks calls (start_digit b d) in
   prev r.1 = b ∧ curr r.1 = b ∧ charMap r.1 = glyph b
   ∧ r.2 = Z.to_nat (CHAR_ROWS + 1))
  ∧ (forall value vl now d',
       prev d' = curr d'
       ∨ sub32 now (timeLastFrame d') < ANIMATION_FRAME_TIME ->
       animate_digit value vl now d' = (d', None))
  ∧ (forall value vl now d',
       next_frame value vl now d' ≠ None ->
       timeLastFrame (next_digit value vl now d') = now).
Proof.
  intros Hp Hc Hab Hpaced Hlen. split.
  2:{ split.
      - intros value vl now d' [H|H];
          [by apply animate_digit_settled | by apply animate_digit_early].
      - intros value vl now d'. unfold next_frame, next_digit.
        by destruct (animate_digit_cases value vl now d')
          as [[-> _]|(_ & _ & ->)]. }
  set (d0 := start_digit b d).
  assert (prev d0 ≠ curr d0) as Hne by (cbn; congruence).
  assert (forall cs,
            paced (time_of <$> cs) -> (9 <= length cs)%nat ->
            match cs with
            | c :: _ => ANIMATION_FRAME_TIME <= time_of c
            | [] => True
            end ->
            let r := ticks cs d0 in
            prev r.1 = b ∧ curr r.1 = b ∧ charMap r.1 = glyph b
            ∧ r.2 = Z.to_nat (CHAR_ROWS + 1)) as Hrun.
  { intros cs Hcs Hl Hdue.
    assert (match cs with
            | c :: _ =>
                ANIMATION_FRAME_TIME <= sub32 (time_of c) (timeLastFrame d0)
            | [] => True
            end) as Hdue0.
    { destruct cs as [|c cs]; [done|].
      cbn [fmap list_fmap paced] in Hcs. destruct Hcs as (Hc0 & _).
      cbn [d0 start_digit timeLastFrame]. unfold sub32.
      rewrite Z.sub_0_r, Z.mod_small by exact Hc0. exact Hdue. }
    destruct (ticks_finish 9 cs d0 Hne eq_refl ltac:(lia) Hcs Hl Hdue0)
      as (H1 & H2 & H3 & H4).
    cbv zeta. rewrite H1, H2, H3, H4. done. }
  destruct calls as [|[[value vl] now] calls]; [cbn in Hlen; lia|].
  destruct (Z_lt_le_dec now ANIMATION_FRAME_TIME) as [Hearly|Hdue].
  - (* the first call comes before the clock has reached one frame time *)
    destruct Hlen as [Hlen|[_ Hlen]]; [|cbn [time_of snd] in Hlen; lia].
    cbn [fmap list_fmap paced time_of snd] in Hpaced.
    destruct Hpaced as (Hnow & Hnext & Hpaced).
    cbv zeta. cbn [ticks].
    rewrite animate_digit_early; cycle 1.
    { cbn [d0 start_digit timeLastFrame]. unfold sub32.
      rewrite Z.sub_0_r, Z.mod_small by done. exact Hearly. }
    cbn [fst snd]. apply Hrun; [done | cbn in Hlen; lia |].
    destruct calls as [|[[value' vl'] now'] calls]; [done|].
    cbn [fmap list_fmap time_of snd] in *. destruct Hnow. lia.
  - apply Hrun; [done | | done].
    destruct Hlen as [Hlen|[Hlen _]]; lia.
Qed.

Lemma retarget_then_ticks_witness :
  let r := ticks ((λ t, (12345679, 12345678, t)) <$> every 50 10 10)
                 (start_digit 9 (mkDigit 0 8 8 0 (glyph 8))) in
  prev r.1 = 9 ∧ curr r.1 = 9 ∧ charMap r.1 = glyph 9
  ∧ r.2 = Z.to_nat (CHAR_ROWS + 1).
Proof.
  eapply proj1.
  apply (retarget_then_ticks 8 9 (mkDigit 0 8 8 0 (glyph 8))
           ((λ t, (12345679, 12345678, t)) <$> every 50 10 10)).
  - reflexivity.
  - reflexivity.
  - lia.
  - vm_compute. repeat split; discriminate.
  - left. vm_compute. lia.
Defined.

(** ** Digits of the value in the array and on the display *)

(** C5: at the first call and at every call in [ST_WAIT] that finds a new
    value, position i of [digits] gets the digit (value / 10^i) mod 10 for
    i < MAX_DIGITS; the digits from 10^8 up have no influence on it; the
    digit of position i is shown in column [DISP_C + 7 - i] of line
    [DISP_R], so position 0 is the rightmost of the eight cells; the first
    call returns true like any other, no error is signalled. *)
Theorem digits_of_value s value now (i : nat) :
  reachable s -> is_uint32 value -> is_uint32 now ->
  (i < MAX_DIGITS)%nat ->
  state s = ST_INIT ∨ (state s = ST_WAIT ∧ valueLast s ≠ value) ->
  let r := displayValue value now s in
  exists d,
    digits (after r) !! i = Some d
    ∧ curr d = (value / 10 ^ Z.of_nat i) mod 10
    ∧ curr d = ((value mod 10 ^ 8) / 10 ^ Z.of_nat i) mod 10
    ∧ (state s = ST_INIT ->
       prev d = curr d ∧ charMap d = glyph (curr d) ∧ ret r = true)
    ∧ lcd_cell DISP_R (DISP_C + (7 - Z.of_nat i)) (lcd (after r))
      = Some (7 - Z.of_nat i)
    ∧ lcd_shown DISP_R (DISP_C + (7 - Z.of_nat i)) (lcd (after r))
      = Some (charMap d).
Proof.
  intros Hreach Hv Hnow Hi Hst. cbv zeta.
  pose proof (reachable_Inv _ Hreach) as HI.
  pose proof (reachable_Inv _ (reach_call s value now Hreach Hv Hnow)) as HI'.
  pose proof (inv_len _ HI) as Hlen.
  destruct (lookup_lt_is_Some_2 (digits s) i) as [d0 Hd0]; [by rewrite Hlen|].
  assert (exists d,
            digits (after (displayValue value now s)) !! i = Some d
            ∧ curr d = (value / 10 ^ Z.of_nat i) mod 10
            ∧ (state s = ST_INIT ->
               prev d = curr d ∧ charMap d = glyph (curr d)
               ∧ ret (displayValue value now s) = true)
            ∧ state (after (displayValue value now s)) ≠ ST_INIT)
    as (d & Hd & Hcurr & Hinit & Hst').
  { destruct Hst as [Hst|[Hst Hne]].
    - rewrite displayValue_init by done.
      rewrite list_lookup_fmap, spread_lookup, Hd0. cbn [fmap option_fmap option_map].
      eexists; split; [reflexivity|]. cbn [curr prev charMap load_glyph seed_digit].
      unfold displayValue. rewrite Hst. cbn [ret after state]. done.
    - rewrite displayValue_accept by done.
      rewrite anim_case_digits by (by rewrite length_spread).
      rewrite list_lookup_fmap, spread_lookup, Hd0. cbn [fmap option_fmap option_map].
      eexists; split; [reflexivity|].
      split; [|split; [congruence|]].
      + unfold next_digit.
        destruct (animate_digit_cases (value / 10 ^ 8) (valueLast s) now
                    (start_digit ((value / 10 ^ Z.of_nat i) mod 10) d0))
          as [[-> _]|(_ & _ & ->)]; reflexivity.
      + rewrite anim_case_eq by (by rewrite length_spread). cbv zeta.
        by destruct (forallb settledb _). }
  exists d. split; [done|]. split; [done|].
  split; [by rewrite digit_truncated|]. split; [done|].
  pose proof (inv_cgram _ HI' Hst') as Hcg.
  pose proof (inv_ddram _ HI' Hst') as Hdd.
  pose proof (inv_len _ HI') as Hlen'.
  assert (lcd_cell DISP_R (DISP_C + (7 - Z.of_nat i))
            (lcd (after (displayValue value now s)))
          = Some (7 - Z.of_nat i)) as Hcell.
  { unfold lcd_cell. rewrite Hdd.
    replace (7 - Z.of_nat i) with (Z.of_nat (7 - i))
      by (unfold MAX_DIGITS in Hi; lia).
    apply screen_ready_cell. unfold MAX_DIGITS in *. lia. }
  split; [done|].
  unfold lcd_shown. rewrite Hcell. cbn [mbind option_bind].
  rewrite Hcg, list_lookup_fmap.
  rewrite reverse_lookup by (rewrite Hlen'; unfold MAX_DIGITS in *; lia).
  rewrite Hlen'.
  replace (Z.to_nat (7 - Z.of_nat i)) with (7 - i)%nat
    by (unfold MAX_DIGITS in Hi; lia).
  replace (MAX_DIGITS - S (7 - i))%nat with i
    by (unfold MAX_DIGITS in *; lia).
  by rewrite Hd.
Qed.

Lemma digits_of_value_witness :
  let r := displayValue 12345678 0 power_on in
  exists d,
    digits (after r) !! 0%nat = Some d
    ∧ curr d = (12345678 / 10 ^ 0) mod 10
    ∧ curr d = ((12345678 mod 10 ^ 8) / 10 ^ 0) mod 10
    ∧ (state power_on = ST_INIT ->
       prev d = curr d ∧ charMap d = glyph (curr d) ∧ ret r = true)
    ∧ lcd_cell DISP_R (DISP_C + (7 - 0)) (lcd (after r)) = Some (7 - 0)
    ∧ lcd_shown DISP_R (DISP_C + (7 - 0)) (lcd (after r)) = Some (charMap d).
Proof.
  apply (digits_of_value power_on 12345678 0 0).
  - constructor.
  - unfold is_uint32, UINT32_MOD. lia.
  - unfold is_uint32, UINT32_MOD. lia.
  - unfold MAX_DIGITS. lia.
  - left. reflexivity.
Defined.

(** ** Digits that do not change *)

Lemma run_anim_keeps_settled i d calls : forall s,
  length (digits s) = MAX_DIGITS ->
  digits s !! i = Some d -> prev d = curr d ->
  digits (run_anim calls s) !! i = Some d.
Proof.
  induction calls as [|[value now] calls IH]; intros s Hlen Hd Hs; [done|].
  cbn [run_anim]. destruct (state s) eqn:Hst; try done.
  apply IH; [by apply displayValue_length | | done].
  rewrite displayValue_anim, anim_case_digits by done.
  rewrite list_lookup_fmap, Hd. cbn. unfold next_digit.
  by rewrite animate_digit_settled.
Qed.

(** C6: when a call in [ST_WAIT] finds a new value, a position whose new
    digit equals its settled digit draws no frame in that call, and through
    all the calls of the animation it stays settled on that digit with the
    bitmap it had; a position whose digit differs is no longer settled after
    the call: it is the one that rolls. *)
Theorem unchanged_digits_stay_settled s value now (i : nat) d :
  state s = ST_WAIT -> length (digits s) = MAX_DIGITS ->
  Forall settled (digits s) -> valueLast s ≠ value ->
  digits s !! i = Some d ->
  let r := displayValue value now s in
  ((value / 10 ^ Z.of_nat i) mod 10 = curr d ->
   frames r !! i = Some None
   ∧ forall calls, exists d',
       digits (run_anim calls (after r)) !! i = Some d'
       ∧ prev d' = curr d' ∧ curr d' = curr d ∧ charMap d' = charMap d)
  ∧ ((value / 10 ^ Z.of_nat i) mod 10 ≠ curr d ->
     exists d',
       digits (after r) !! i = Some d'
       ∧ prev d' = curr d ∧ curr d' = (value / 10 ^ Z.of_nat i) mod 10
       ∧ prev d' ≠ curr d').
Proof.
  intros Hst Hlen Hall Hne Hd. cbv zeta.
  assert (prev d = curr d) as Hs.
  { rewrite Forall_lookup in Hall. by apply (Hall i d). }
  rewrite displayValue_accept by done.
  pose proof (length_spread start_digit value (digits s)) as Hlen1.
  rewrite Hlen in Hlen1.
  set (k := (value / 10 ^ Z.of_nat i) mod 10).
  assert (spread start_digit value (digits s) !! i = Some (start_digit k d))
    as Hd1 by (by rewrite spread_lookup, Hd).
  split.
  - intros Hk.
    assert (prev (start_digit k d) = curr (start_digit k d)) as Hs1
      by (cbn; congruence).
    split.
    + rewrite anim_case_frames, list_lookup_fmap, Hd1 by done. cbn.
      unfold next_frame. by rewrite animate_digit_settled.
    + intros calls. exists (start_digit k d).
      split; [|cbn; repeat split; congruence].
      apply run_anim_keeps_settled; [| |done].
      * rewrite anim_case_digits by done. by rewrite length_fmap.
      * rewrite anim_case_digits, list_lookup_fmap, Hd1 by done. cbn.
        unfold next_digit. by rewrite animate_digit_settled.
  - intros Hk. rewrite anim_case_digits, list_lookup_fmap, Hd1 by done.
    cbn [fmap option_fmap option_map].
    eexists; split; [reflexivity|]. unfold next_digit.
    destruct (animate_digit_cases (value / 10 ^ 8) (valueLast s) now
                (start_digit k d)) as [[-> _]|(_ & _ & ->)];
      cbn [fst prev curr index start_digit].
    + repeat split; congruence.
    + change (CHAR_ROWS <? incr8 0) with false. cbv iota.
      repeat split; congruence.
Qed.

Lemma unchanged_digits_stay_settled_witness :
  let s := after (displayValue 12345678 0 power_on) in
  let r := displayValue 12345679 1000 s in
  frames r = [Some DWN; None; None; None; None; None; None; None]
  ∧ (forall calls, exists d',
       digits (run_anim calls (after r)) !! 1%nat = Some d'
       ∧ prev d' = curr d' ∧ curr d' = 7 ∧ charMap d' = glyph 7)
  ∧ exists d',
      digits (after r) !! 0%nat = Some d'
      ∧ prev d' = 8 ∧ curr d' = 9 ∧ prev d' ≠ curr d'.
Proof.
  cbv zeta. split; [reflexivity|]. split.
  - apply (unchanged_digits_stay_settled
             (after (displayValue 12345678 0 power_on)) 12345679 1000 1
             (mkDigit 0 7 7 0 (glyph 7))); try reflexivity.
    + vm_compute. repeat constructor.
    + discriminate.
  - apply (unchanged_digits_stay_settled
             (after (displayValue 12345678 0 power_on)) 12345679 1000 0
             (mkDigit 0 8 8 0 (glyph 8))); try reflexivity.
    + vm_compute. repeat constructor.
    + discriminate.
    + vm_compute. discriminate.
Defined.

(** ** Progress of the animation index *)

Lemma next_digit_index value vl now d :
  0 <= index d <= 9 ->
  index (next_digit value vl now d) = index d
  ∨ index (next_digit value vl now d) = index d + 1.
Proof.
  intros Hi. unfold next_digit.
  destruct (animate_digit_cases value vl now d) as [[-> _]|(_ & _ & ->)];
    [by left|].
  right. cbn [fst index]. unfold incr8, UINT8_MOD. apply Z.mod_small. lia.
Qed.

Lemma next_digit_step value vl now d0 :
  0 <= index d0 <= 9 ->
  let d' := next_digit value vl now d0 in
  let f := next_frame value vl now d0 in
  (index d' = index d0 ∨ index d' = index d0 + 1)
  ∧ (index d' = index d0 + 1 <-> exists dir, f = Some dir)
  ∧ (forall dir, f = Some dir ->
       charMap d' = scroll dir (prev d0) (curr d') (index d0)
       ∧ timeLastFrame d' = now).
Proof.
  intros Hi. cbv zeta. unfold next_digit, next_frame.
  destruct (animate_digit_cases value vl now d0) as [[-> _]|(_ & _ & ->)];
    cbn [fst snd index charMap curr timeLastFrame].
  - split; [by left|]. split.
    + split; [lia | by intros [dir H]].
    + by intros dir H.
  - assert (incr8 (index d0) = index d0 + 1) as ->
      by (unfold incr8, UINT8_MOD; apply Z.mod_small; lia).
    split; [by right|]. split.
    + split; [by eexists | done].
    + by intros dir [= <-].
Qed.

(** C9: in every reachable state a single call moves the index of each
    position by at most one step, whatever time has passed since its last
    frame.  Counted from the index the position has once the call has
    retargeted it (0 in the call in [ST_WAIT] that finds a new value, the
    index before the call otherwise) the step is exactly 0 or 1; it is 1
    exactly when the call draws a frame for the position, and the frame
    drawn is then the blend at the index counted from, so no intermediate
    frame is ever left out. *)
Theorem index_moves_one_step s value now (i : nat) d d' :
  reachable s -> is_uint32 value -> is_uint32 now ->
  digits s !! i = Some d ->
  let r := displayValue value now s in
  digits (after r) !! i = Some d' ->
  let base := if state_eqb (state s) ST_WAIT && negb (valueLast s =? value)
              then 0 else index d in
  index d' <= index d + 1
  ∧ (index d' = base ∨ index d' = base + 1)
  ∧ (index d' = base + 1 <-> exists dir, frames r !! i = Some (Some dir))
  ∧ (forall dir, frames r !! i = Some (Some dir) ->
       charMap d' = scroll dir (prev d) (curr d') base
       ∧ timeLastFrame d' = now).
Proof.
  intros Hreach Hv Hnow Hd. cbv zeta. intros Hd'.
  pose proof (reachable_Inv _ Hreach) as HI.
  pose proof (inv_len _ HI) as Hlen.
  destruct (state s) eqn:Hst; cbn [state_eqb andb].
  - (* ST_INIT *)
    rewrite displayValue_init in Hd' by done.
    rewrite list_lookup_fmap, spread_lookup, Hd in Hd'. cbn in Hd'.
    injection Hd' as <-. cbn [load_glyph seed_digit index].
    unfold displayValue. rewrite Hst. cbn [frames]. rewrite lookup_nil.
    split; [lia|]. split; [by left|]. split.
    + split; [lia | by intros [dir H]].
    + by intros dir H.
  - (* ST_WAIT *)
    assert (ST_WAIT ≠ ST_INIT) as Hn by discriminate.
    pose proof (inv_digits _ HI) as Hok. rewrite Hst in Hok.
    specialize (Hok Hn). rewrite Forall_lookup in Hok.
    destruct (Hok i d Hd) as (_ & _ & Hi & _).
    destruct (Z.eqb_spec (valueLast s) value) as [He|Hne]; cbn [negb].
    + revert Hd'. unfold displayValue.
      rewrite Hst, He, Z.eqb_refl. cbn [negb after frames].
      rewrite lookup_nil. intros Hd'.
      assert (d' = d) as -> by congruence.
      split; [lia|]. split; [by left|]. split.
      * split; [lia | by intros [dir H]].
      * by intros dir H.
    + revert Hd'. rewrite displayValue_accept by done.
      rewrite anim_case_digits, anim_case_frames
        by (by rewrite length_spread).
      rewrite !list_lookup_fmap, spread_lookup, Hd. cbn.
      intros [= <-].
      set (d0 := start_digit ((value / 10 ^ Z.of_nat i) mod 10) d).
      destruct (next_digit_step (value / 10 ^ 8) (valueLast s) now d0)
        as (H1 & H2 & H3); [cbn; lia|].
      change (index d0) with 0 in H1, H2, H3.
      change (prev d0) with (prev d) in H3.
      split; [destruct H1 as [-> | ->]; lia|]. split; [exact H1|]. split.
      * rewrite H2. split; intros [dir H]; exists dir; congruence.
      * intros dir [= H]. by apply H3.
  - (* ST_ANIM *)
    assert (ST_ANIM ≠ ST_INIT) as Hn by discriminate.
    pose proof (inv_digits _ HI) as Hok. rewrite Hst in Hok.
    specialize (Hok Hn). rewrite Forall_lookup in Hok.
    destruct (Hok i d Hd) as (_ & _ & Hi & _).
    revert Hd'. rewrite displayValue_anim by done.
    rewrite anim_case_digits, anim_case_frames by done.
    rewrite !list_lookup_fmap, Hd. cbn. intros [= <-].
    destruct (next_digit_step value (valueLast s) now d Hi) as (H1 & H2 & H3).
    split; [destruct H1 as [-> | ->]; lia|]. split; [exact H1|]. split.
    + rewrite H2. split; intros [dir H]; exists dir; congruence.
    + intros dir [= H]. by apply H3.
Qed.

Lemma index_moves_one_step_witness :
  let d := mkDigit 2000 9 0 1 (glyph 9) in
  let d' := mkDigit 5000 9 0 2 (scroll UP 9 0 1) in
  index d' <= index d + 1
  ∧ (index d' = index d ∨ index d' = index d + 1)
  ∧ (index d' = index d + 1 <->
     exists dir, frames (displayValue 12345680 5000 rolling_to_12345680)
                   !! 0%nat = Some (Some dir))
  ∧ (forall dir,
       frames (displayValue 12345680 5000 rolling_to_12345680) !! 0%nat
       = Some (Some dir) ->
       charMap d' = scroll dir (prev d) (curr d') (index d)
       ∧ timeLastFrame d' = 5000).
Proof.
  cbv zeta.
  apply (index_moves_one_step rolling_to_12345680 12345680 5000 0
           (mkDigit 2000 9 0 1 (glyph 9))
           (mkDigit 5000 9 0 2 (scroll UP 9 0 1))).
  - assert (rolling_to_12345680
            = after (displayValue 12345680 2000 shown_12345679)) as ->
      by (vm_compute; reflexivity).
    apply reach_call; [apply shown_12345679_reachable| |];
      unfold is_uint32, UINT32_MOD; lia.
  - unfold is_uint32, UINT32_MOD. lia.
  - unfold is_uint32, UINT32_MOD. lia.
  - vm_compute. reflexivity.
  - vm_compute. reflexivity.
Defined.

(** The reset at a new value: position 0 of [shown_12345679] has index 9;
    the call that finds 12345680 sets it back to 0 and draws the first
    frame, which leaves it at 1. *)
Example index_reset_on_new_value :
  index <$> digits shown_12345679 !! 0%nat = Some 9
  ∧ index <$> digits (after (displayValue 12345680 2000 shown_12345679))
               !! 0%nat = Some 1.
Proof. split; vm_compute; reflexivity. Qed.

Lemma idle_same_value_stays_witness :
  (forall now,
     displayValue 12345679 now shown_12345679
     = mkResult shown_12345679 [] true)
  ∧ trace ((λ t, (12345679, t)) <$> [1450; 1451; 5000]) shown_12345679
    = (λ _, mkResult shown_12345679 [] true) <$> [1450; 1451; 5000]
  ∧ run ((λ t, (12345679, t)) <$> [1450; 1451; 5000]) shown_12345679
    = shown_12345679.
Proof.
  apply (idle_same_value_stays shown_12345679 12345679 [1450; 1451; 5000]);
    vm_compute; reflexivity.
Defined.

(** ** The direction of a roll *)

(** The call that finds the new value makes its frames with what the loop
    over the digits has left of [value]. *)
Lemma accept_frames value now s :
  state s = ST_WAIT -> valueLast s ≠ value ->
  length (digits s) = MAX_DIGITS ->
  frames (displayValue value now s)
  = next_frame (value / 10 ^ 8) (valueLast s) now
      <$> spread start_digit value (digits s).
Proof.
  intros Hst Hne Hlen. rewrite displayValue_accept by done.
  apply anim_case_frames. by rewrite length_spread.
Qed.

Lemma anim_frames value now s :
  state s = ST_ANIM -> length (digits s) = MAX_DIGITS ->
  frames (displayValue value now s)
  = next_frame value (valueLast s) now <$> digits s.
Proof.
  intros Hst Hlen. rewrite displayValue_anim by done.
  by apply anim_case_frames.
Qed.

Lemma next_frame_dir value vl now d dir :
  next_frame value vl now d = Some dir -> dir = scroll_dir value vl.
Proof.
  unfold next_frame.
  destruct (animate_digit_cases value vl now d) as [[-> _]|(_ & _ & ->)];
    cbn; congruence.
Qed.

(** For a value of at most eight digits the frames of that call all come
    from the "scroll down" branch. *)
Lemma accept_frames_down value now s (i : nat) dir :
  state s = ST_WAIT -> valueLast s ≠ value ->
  length (digits s) = MAX_DIGITS ->
  0 <= valueLast s -> 0 <= value < 10 ^ 8 ->
  frames (displayValue value now s) !! i = Some (Some dir) -> dir = DWN.
Proof.
  intros Hst Hne Hlen Hvl Hv. rewrite accept_frames by done.
  rewrite list_lookup_fmap. destruct (_ !! i) as [d|]; [|discriminate].
  cbn. intros [= H]. apply next_frame_dir in H. subst dir.
  rewrite Z.div_small by done. unfold scroll_dir.
  by destruct (Z.ltb_spec (valueLast s) 0); [lia|].
Qed.

(** Within one call all the frames drawn come from the same branch. *)
Lemma one_call_one_direction value now s (i j : nat) di dj :
  length (digits s) = MAX_DIGITS ->
  frames (displayValue value now s) !! i = Some (Some di) ->
  frames (displayValue value now s) !! j = Some (Some dj) ->
  di = dj.
Proof.
  intros Hlen. destruct (state s) eqn:Hst.
  - unfold displayValue. rewrite Hst. cbn [frames]. by rewrite lookup_nil.
  - destruct (Z.eq_dec (valueLast s) value) as [He|Hne].
    + unfold displayValue. rewrite Hst, He, Z.eqb_refl. cbn [negb frames].
      by rewrite lookup_nil.
    + rewrite accept_frames by done. rewrite !list_lookup_fmap.
      destruct (_ !! i) as [d1|]; [|discriminate].
      destruct (_ !! j) as [d2|]; [|discriminate].
      cbn. intros [= H1] [= H2].
      apply next_frame_dir in H1, H2. congruence.
  - rewrite anim_frames by done. rewrite !list_lookup_fmap.
    destruct (_ !! i) as [d1|]; [|discriminate].
    destruct (_ !! j) as [d2|]; [|discriminate].
    cbn. intros [= H1] [= H2].
    apply next_frame_dir in H1, H2. congruence.
Qed.

(** C1 fails on the sketch.  From the settled value 12345679 the value
    12345680 is supplied: the call that finds it draws its frames by the
    "scroll down" branch although the value went up, the next call draws by
    the "scroll up" branch; when the value supplied moves to 12345678 while
    the same roll is under way (state [ST_ANIM], settled value unchanged),
    the next frames are drawn downwards again, and the bitmap of position 0
    is then the downward blend, which differs from the upward one. *)
Theorem direction_changes_within_one_roll :
  let s0 := shown_12345679 in
  let r1 := displayValue 12345680 2000 s0 in
  let r2 := displayValue 12345680 2050 (after r1) in
  let r3 := displayValue 12345678 2100 (after r2) in
  (state s0 = ST_WAIT ∧ valueLast s0 = 12345679)
  ∧ frames r1 = [Some DWN; Some DWN; None; None; None; None; None; None]
  ∧ frames r2 = [Some UP; Some UP; None; None; None; None; None; None]
  ∧ frames r3 = [Some DWN; Some DWN; None; None; None; None; None; None]
  ∧ (state (after r3) = ST_ANIM ∧ valueLast (after r3) = 12345679)
  ∧ charMap <$> digits (after r2) !! 0%nat = Some (scroll UP 9 0 1)
  ∧ charMap <$> digits (after r3) !! 0%nat = Some (scroll DWN 9 0 2)
  ∧ scroll DWN 9 0 2 ≠ scroll UP 9 0 2.
Proof.
  cbv zeta. repeat split; try (vm_compute; reflexivity).
  vm_compute. discriminate.
Qed.

(** ** A new value during a roll *)

(** C2 fails on the sketch.  From the settled value 12345679 the value
    12345680 is supplied and its roll starts; while it lasts the value
    supplied becomes 12345681.  When the roll ends the state is [ST_WAIT],
    the settled value recorded is 12345681, but the digits and the display
    show 12345680; every further call with 12345681 returns true, draws
    nothing and changes nothing. *)
Theorem retarget_during_roll_is_lost (times : list Z) :
  let s1 := run ((12345680, 2000)
                 :: ((λ t, (12345681, t)) <$> every 50 2050 8))
                shown_12345679 in
  state s1 = ST_WAIT ∧ valueLast s1 = 12345681
  ∧ curr <$> digits s1 = [0; 8; 6; 5; 4; 3; 2; 1]
  ∧ prev <$> digits s1 = [0; 8; 6; 5; 4; 3; 2; 1]
  ∧ lcd_shown DISP_R (DISP_C + 7) (lcd s1) = Some (glyph 0)
  ∧ glyph 0 ≠ glyph 1
  ∧ trace ((λ t, (12345681, t)) <$> times) s1
    = (λ _, mkResult s1 [] true) <$> times
  ∧ run ((λ t, (12345681, t)) <$> times) s1 = s1.
Proof.
  cbv zeta.
  set (s1 := run _ shown_12345679).
  assert (state s1 = ST_WAIT) as Hst by (vm_compute; reflexivity).
  assert (valueLast s1 = 12345681) as Hvl by (vm_compute; reflexivity).
  destruct (idle_calls s1 12345681 Hst Hvl) as [_ Hidle].
  split; [exact Hst|]. split; [exact Hvl|].
  split; [vm_compute; reflexivity|]. split; [vm_compute; reflexivity|].
  split; [vm_compute; reflexivity|].
  split; [vm_compute; discriminate|]. apply Hidle.
Qed.

(** The same through [loop] and [getKey]: with the UP key held for 260 ms
    the key is accepted twice (at 300 ms and at 510 ms), the value is
    12345680, and the display has come to rest on 12345679. *)
Example loop_second_press_not_shown :
  let s := loops up_held_260ms sketch_start in
  value_of s = 12345680
  ∧ state (display_of s) = ST_WAIT
  ∧ valueLast (display_of s) = 12345680
  ∧ curr <$> digits (display_of s) = [9; 7; 6; 5; 4; 3; 2; 1]
  ∧ prev <$> digits (display_of s) = [9; 7; 6; 5; 4; 3; 2; 1]
  ∧ lcd_shown DISP_R (DISP_C + 7) (lcd (display_of s)) = Some (glyph 9).
Proof.
  cbv zeta. repeat split; vm_compute; reflexivity.
Qed.

(** * Further properties of the sketch *)

(** ** Bitmaps *)

Lemma digitsMap_rows_5_bits :
  Forall (Forall (λ x, 0 <= x < 2 ^ CHAR_COLS)) digitsMap.
Proof. apply (bool_decide_unpack _). vm_compute. exact I. Qed.

Lemma digitsMap_at_5_bits d r : 0 <= digitsMap_at d r < 2 ^ CHAR_COLS.
Proof.
  unfold digitsMap_at.
  destruct ((0 <=? d) && (0 <=? r)); [|by vm_compute].
  destruct (digitsMap !! Z.to_nat d) as [row|] eqn:Hd; [|by vm_compute].
  cbn [mbind option_bind].
  destruct (row !! Z.to_nat r) as [x|] eqn:Hr; [|by vm_compute].
  cbn [default].
  pose proof digitsMap_rows_5_bits as H.
  rewrite Forall_lookup in H. specialize (H _ _ Hd).
  rewrite Forall_lookup in H. exact (H _ _ Hr).
Qed.

Lemma scroll_wf dir prv cur idx : wf_bitmap (scroll dir prv cur idx).
Proof.
  split.
  - destruct dir; cbn [scroll]; unfold scroll_up, scroll_down;
      by rewrite length_fmap, length_seqZ.
  - destruct dir; cbn [scroll]; unfold scroll_up, scroll_down;
      apply Forall_fmap, Forall_forall; intros p _; cbn;
      match goal with |- context [if ?c then _ else _] => destruct c end;
      apply digitsMap_at_5_bits.
Qed.

Lemma glyph_wf d : wf_bitmap (glyph d).
Proof. rewrite <- (scroll_start UP d d). apply scroll_wf. Qed.

Lemma next_digit_wf value vl now d :
  wf_bitmap (charMap d) -> wf_bitmap (charMap (next_digit value vl now d)).
Proof.
  intros H. unfold next_digit.
  destruct (animate_digit_cases value vl now d) as [[-> _]|(_ & _ & ->)];
    [done|]. cbn [fst charMap]. apply scroll_wf.
Qed.

Lemma displayValue_wf value now s :
  length (digits s) = MAX_DIGITS ->
  Forall (λ d, wf_bitmap (charMap d)) (digits s) ->
  Forall (λ d, wf_bitmap (charMap d)) (digits (after (displayValue value now s))).
Proof.
  intros Hlen Hwf. rewrite Forall_lookup in Hwf. apply Forall_lookup.
  intros i d'. destruct (state s) eqn:Hst.
  - rewrite displayValue_init by done.
    rewrite list_lookup_fmap, spread_lookup.
    destruct (digits s !! i) as [d|]; [|discriminate].
    cbn. intros [= <-]. cbn [load_glyph charMap]. apply glyph_wf.
  - destruct (Z.eq_dec (valueLast s) value) as [He|Hne].
    + unfold displayValue. rewrite Hst, He, Z.eqb_refl. cbn [negb after].
      apply Hwf.
    + rewrite displayValue_accept by done.
      rewrite anim_case_digits by (by rewrite length_spread).
      rewrite list_lookup_fmap, spread_lookup.
      destruct (digits s !! i) as [d|] eqn:Hd; [|discriminate].
      cbn. intros [= <-]. apply next_digit_wf. cbn [start_digit charMap].
      by apply (Hwf i).
  - rewrite displayValue_anim, anim_case_digits by done.
    rewrite list_lookup_fmap.
    destruct (digits s !! i) as [d|] eqn:Hd; [|discriminate].
    cbn. intros [= <-]. apply next_digit_wf. by apply (Hwf i).
Qed.

(** X10: in every reachable state each digit's bitmap has [CHAR_ROWS] rows
    of [CHAR_COLS] bits each, and so has every custom glyph defined on the
    display once the first call has been made. *)
Theorem bitmaps_well_formed s (i : nat) d :
  reachable s -> digits s !! i = Some d ->
  wf_bitmap (charMap d)
  ∧ (state s ≠ ST_INIT ->
     forall (j : nat) g, cgram (lcd s) !! j = Some g -> wf_bitmap g).
Proof.
  intros Hreach Hd.
  assert (Forall (λ d, wf_bitmap (charMap d)) (digits s)) as Hall.
  { clear i d Hd. induction Hreach as [|s value now Hreach IH Hv Hnow].
    - cbn [digits power_on]. apply Forall_replicate. split; [done|].
      by apply (bool_decide_unpack _).
    - apply displayValue_wf; [|done].
      apply inv_len. by apply reachable_Inv. }
  rewrite Forall_lookup in Hall. split; [by apply (Hall i)|].
  intros Hst j g Hg.
  rewrite (inv_cgram _ (reachable_Inv _ Hreach) Hst) in Hg.
  rewrite list_lookup_fmap in Hg.
  destruct (reverse (digits s) !! j) as [d0|] eqn:Hj; [|discriminate].
  cbn in Hg. injection Hg as <-.
  apply list_elem_of_lookup_2, elem_of_reverse, list_elem_of_lookup in Hj.
  destruct Hj as [k Hk]. rewrite reverse_involutive in Hk.
  by apply (Hall k).
Qed.

Lemma bitmaps_well_formed_witness :
  wf_bitmap (charMap (mkDigit 1400 9 9 9 (glyph 9))).
Proof.
  apply (bitmaps_well_formed shown_12345679 0 (mkDigit 1400 9 9 9 (glyph 9))).
  - apply shown_12345679_reachable.
  - vm_compute. reflexivity.
Defined.

(** ** The returned flag and the states *)

Lemma settled_forallb ds : Forall settled ds -> forallb settledb ds = true.
Proof.
  induction 1 as [|d ds Hd _ IH]; [done|].
  cbn [forallb]. unfold settledb at 1. unfold settled in Hd.
  by rewrite Hd, Z.eqb_refl, IH.
Qed.

Lemma anim_case_flag value now ds vl l :
  length ds = MAX_DIGITS ->
  let r := anim_case value now ST_ANIM ds vl l in
  (ret r = true <-> Forall settled (digits (after r)))
  ∧ (ret r = true <-> state (after r) = ST_WAIT)
  ∧ (state (after r) = ST_WAIT ∨ state (after r) = ST_ANIM)
  ∧ (state (after r) = ST_ANIM -> valueLast (after r) = vl)
  ∧ (state (after r) = ST_WAIT -> valueLast (after r) = value).
Proof.
  intros Hlen. cbv zeta. rewrite anim_case_eq by done. cbv zeta.
  destruct (forallb settledb _) eqn:E;
    cbn [ret after digits state valueLast state_eqb].
  - repeat split; try done; [by intros; apply forallb_settled | by left].
  - repeat split; try done; try discriminate; [|by right].
    intros H. apply settled_forallb in H. congruence.
Qed.

Lemma flag_settled_core s value now :
  reachable s -> is_uint32 value -> is_uint32 now ->
  let r := displayValue value now s in
  (ret r = true <-> Forall settled (digits (after r)))
  ∧ (ret r = true <-> state (after r) = ST_WAIT)
  ∧ state (after r) ≠ ST_INIT
  ∧ (state (after r) = ST_ANIM -> valueLast (after r) = valueLast s).
Proof.
  intros Hreach Hv Hnow. cbv zeta.
  pose proof (reachable_Inv _ Hreach) as HI.
  pose proof (inv_len _ HI) as Hlen.
  destruct (state s) eqn:Hst.
  - pose proof (reachable_Inv _ (reach_call s value now Hreach Hv Hnow)) as HI'.
    pose proof (inv_wait _ HI') as Hw. revert Hw.
    unfold displayValue. rewrite Hst. cbn [ret after state valueLast].
    intros Hw. repeat split; try done. intros _. by apply Hw.
  - destruct (Z.eq_dec (valueLast s) value) as [He|Hne].
    + unfold displayValue. rewrite Hst, He, Z.eqb_refl.
      cbn [negb ret after]. rewrite Hst.
      repeat split; try done. intros _. by apply (inv_wait _ HI).
    + rewrite displayValue_accept by done.
      destruct (anim_case_flag (value / 10 ^ 8) now
                  (spread start_digit value (digits s)) (valueLast s) (lcd s))
        as (H1 & H2 & H3 & H4 & _); [by rewrite length_spread|].
      repeat split; try apply H1; try apply H2; try done.
      destruct H3 as [-> | ->]; discriminate.
  - rewrite displayValue_anim by done.
    destruct (anim_case_flag value now (digits s) (valueLast s) (lcd s) Hlen)
      as (H1 & H2 & H3 & H4 & _).
    repeat split; try apply H1; try apply H2; try done.
    destruct H3 as [-> | ->]; discriminate.
Qed.

(** X2: a call returns true exactly when it leaves every digit settled,
    which is exactly when it leaves the state [ST_WAIT]; no call leaves the
    state [ST_INIT]; the settled value changes only in a call that ends in
    [ST_WAIT]. *)
Theorem flag_tells_settled s value now :
  reachable s -> is_uint32 value -> is_uint32 now ->
  let r := displayValue value now s in
  (ret r = true <-> Forall settled (digits (after r)))
  ∧ (ret r = true <-> state (after r) = ST_WAIT)
  ∧ state (after r) ≠ ST_INIT
  ∧ (state (after r) = ST_ANIM -> valueLast (after r) = valueLast s).
Proof. apply flag_settled_core. Qed.

Lemma flag_tells_settled_witness :
  let r := displayValue 12345680 2000 shown_12345679 in
  (ret r = true <-> Forall settled (digits (after r)))
  ∧ (ret r = true <-> state (after r) = ST_WAIT)
  ∧ state (after r) ≠ ST_INIT
  ∧ (state (after r) = ST_ANIM ->
     valueLast (after r) = valueLast shown_12345679).
Proof.
  apply (flag_tells_settled shown_12345679 12345680 2000).
  - apply shown_12345679_reachable.
  - unfold is_uint32, UINT32_MOD. lia.
  - unfold is_uint32, UINT32_MOD. lia.
Defined.

(** ** What the display shows *)

Lemma display_mirror_core s (i : nat) :
  reachable s -> state s ≠ ST_INIT -> (i < MAX_DIGITS)%nat ->
  (exists d,
     digits s !! i = Some d
     ∧ lcd_cell DISP_R (DISP_C + (7 - Z.of_nat i)) (lcd s)
       = Some (7 - Z.of_nat i)
     ∧ lcd_shown DISP_R (DISP_C + (7 - Z.of_nat i)) (lcd s)
       = Some (charMap d)
     ∧ (prev d = curr d ->
        digitsMap !! Z.to_nat (curr d) = Some (charMap d)))
  ∧ ddram (lcd s) !! Z.to_nat 0 = ddram (lcd power_on) !! Z.to_nat 0
  ∧ drop MAX_DIGITS <$> ddram (lcd s) !! Z.to_nat DISP_R
    = drop MAX_DIGITS <$> ddram (lcd power_on) !! Z.to_nat DISP_R.
Proof.
  intros Hreach Hst Hi.
  pose proof (reachable_Inv _ Hreach) as HI.
  pose proof (inv_len _ HI) as Hlen.
  pose proof (inv_cgram _ HI Hst) as Hcg.
  pose proof (inv_ddram _ HI Hst) as Hdd.
  pose proof (inv_digits _ HI Hst) as Hok.
  split; [|by rewrite Hdd].
  destruct (lookup_lt_is_Some_2 (digits s) i) as [d Hd]; [by rewrite Hlen|].
  exists d. split; [done|].
  assert (lcd_cell DISP_R (DISP_C + (7 - Z.of_nat i)) (lcd s)
          = Some (7 - Z.of_nat i)) as Hcell.
  { unfold lcd_cell. rewrite Hdd.
    replace (7 - Z.of_nat i) with (Z.of_nat (7 - i))
      by (unfold MAX_DIGITS in Hi; lia).
    apply screen_ready_cell. unfold MAX_DIGITS in *. lia. }
  split; [done|]. split.
  - unfold lcd_shown. rewrite Hcell. cbn [mbind option_bind].
    rewrite Hcg, list_lookup_fmap.
    rewrite reverse_lookup by (rewrite Hlen; unfold MAX_DIGITS in *; lia).
    rewrite Hlen.
    replace (Z.to_nat (7 - Z.of_nat i)) with (7 - i)%nat
      by (unfold MAX_DIGITS in Hi; lia).
    replace (MAX_DIGITS - S (7 - i))%nat with i
      by (unfold MAX_DIGITS in *; lia).
    by rewrite Hd.
  - intros Hs. rewrite Forall_lookup in Hok.
    destruct (Hok i d Hd) as (_ & Hc & _ & _ & Hg & _).
    rewrite (Hg Hs). by apply glyph_in_table.
Qed.

(** X1: in every reachable state after the first call, the cell of digit
    position i (column [DISP_C + 7 - i] of line [DISP_R]) holds the code
    [7 - i] and shows exactly the bitmap of that position, the glyph of the
    digit when the position is settled; the title line and the cells right
    of the number are as [setup] left them. *)
Theorem display_mirrors_digits s (i : nat) :
  reachable s -> state s ≠ ST_INIT -> (i < MAX_DIGITS)%nat ->
  (exists d,
     digits s !! i = Some d
     ∧ lcd_cell DISP_R (DISP_C + (7 - Z.of_nat i)) (lcd s)
       = Some (7 - Z.of_nat i)
     ∧ lcd_shown DISP_R (DISP_C + (7 - Z.of_nat i)) (lcd s)
       = Some (charMap d)
     ∧ (prev d = curr d ->
        digitsMap !! Z.to_nat (curr d) = Some (charMap d)))
  ∧ ddram (lcd s) !! Z.to_nat 0 = ddram (lcd power_on) !! Z.to_nat 0
  ∧ drop MAX_DIGITS <$> ddram (lcd s) !! Z.to_nat DISP_R
    = drop MAX_DIGITS <$> ddram (lcd power_on) !! Z.to_nat DISP_R.
Proof. apply display_mirror_core. Qed.

Lemma display_mirrors_digits_witness :
  exists d,
    digits shown_12345679 !! 0%nat = Some d
    ∧ lcd_cell DISP_R (DISP_C + (7 - 0)) (lcd shown_12345679) = Some (7 - 0)
    ∧ lcd_shown DISP_R (DISP_C + (7 - 0)) (lcd shown_12345679)
      = Some (charMap d)
    ∧ (prev d = curr d -> digitsMap !! Z.to_nat (curr d) = Some (charMap d)).
Proof.
  eapply proj1.
  apply (display_mirrors_digits shown_12345679 0).
  - apply shown_12345679_reachable.
  - vm_compute. discriminate.
  - unfold MAX_DIGITS. lia.
Defined.

(** ** Reads of the glyph table *)

(** X3: in every reachable state after the first call all digits are
    decimal digits, a digit that is not settled has an index of at most
    [CHAR_ROWS], and all the subscripts the scroll loops use for it lie
    inside [digitsMap]; the same holds when a roll is started towards any
    decimal digit (index 0); and a subscript pair inside the table reads a
    table entry. *)
Theorem reads_stay_in_table s (i : nat) d :
  reachable s -> state s ≠ ST_INIT -> digits s !! i = Some d ->
  (0 <= prev d <= 9 ∧ 0 <= curr d <= 9)
  ∧ (prev d ≠ curr d ->
     0 <= index d <= CHAR_ROWS ∧ rows_in_table (prev d) (curr d) (index d))
  ∧ (forall k, 0 <= k <= 9 -> rows_in_table (prev d) k 0)
  ∧ (forall a r, in_table a r ->
       digitsMap !! Z.to_nat a ≫= (.!! Z.to_nat r) = Some (digitsMap_at a r)).
Proof.
  intros Hreach Hst Hd.
  pose proof (inv_digits _ (reachable_Inv _ Hreach) Hst) as Hok.
  rewrite Forall_lookup in Hok.
  destruct (Hok i d Hd) as (Hp & Hc & Hi & Hi8 & _ & _).
  split; [done|]. split; [|split].
  - intros Hne. specialize (Hi8 Hne). unfold CHAR_ROWS at 1.
    split; [lia|]. intros p Hp'.
    apply scroll_reads_in_table; unfold CHAR_ROWS in *; lia.
  - intros k Hk p Hp'.
    apply scroll_reads_in_table; unfold CHAR_ROWS in *; lia.
  - apply digitsMap_at_in_table.
Qed.

Lemma reads_stay_in_table_witness :
  let s := after (displayValue 12345680 2000 shown_12345679) in
  (0 <= 9 <= 9 ∧ 0 <= 0 <= 9)
  ∧ (9 ≠ 0 -> 0 <= 1 <= CHAR_ROWS ∧ rows_in_table 9 0 1).
Proof.
  cbv zeta.
  pose proof (reads_stay_in_table
                (after (displayValue 12345680 2000 shown_12345679)) 0
                (mkDigit 2000 9 0 1 (glyph 9))) as H.
  cbn [prev curr index] in H.
  destruct H as (H1 & H2 & _).
  - apply reach_call; [apply shown_12345679_reachable| |];
      unfold is_uint32, UINT32_MOD; lia.
  - vm_compute. discriminate.
  - vm_compute. reflexivity.
  - split; [exact H1 | exact H2].
Defined.

(** ** Time *)

Lemma sub32_elapsed t e :
  is_uint32 t -> 0 <= e < UINT32_MOD ->
  sub32 ((t + e) mod UINT32_MOD) t = e.
Proof.
  unfold is_uint32, sub32, UINT32_MOD. intros Ht He.
  rewrite Zminus_mod_idemp_l.
  replace (t + e - t) with e by lia. by apply Z.mod_small.
Qed.

(** X8: both timers measure the time elapsed modulo 2^32, so they keep
    working when [millis()] wraps: with [e] ms gone since the last frame, a
    digit that is not settled draws exactly when [e >= 50], and with [e] ms
    gone since the last accepted key, [getKey] returns a key only when
    [e > 200], also when the clock has passed its maximum in between. *)
Theorem timers_survive_clock_wrap value vl input t e d :
  is_uint32 t -> 0 <= e < UINT32_MOD ->
  let now := (t + e) mod UINT32_MOD in
  (timeLastFrame d = t -> prev d ≠ curr d ->
   (next_frame value vl now d ≠ None <-> ANIMATION_FRAME_TIME <= e))
  ∧ ((getKey input now t).1 ≠ KEY_NONE -> 200 < e)
  ∧ (200 < e -> input < 760 -> (getKey input now t) .1 ≠ KEY_NONE)
  ∧ (e <= 200 -> getKey input now t = (KEY_NONE, t)).
Proof.
  intros Ht He. cbv zeta.
  pose proof (sub32_elapsed t e Ht He) as Hsub.
  split; [|split; [|split]].
  - intros Htl Hne. unfold next_frame.
    destruct (animate_digit_cases value vl ((t + e) mod UINT32_MOD) d)
      as [[-> [Hs|Hearly]]|(_ & Hdue & ->)]; cbn [snd].
    + done.
    + rewrite Htl, Hsub in Hearly. split; [done | lia].
    + rewrite Htl, Hsub in Hdue. split; [done | discriminate].
  - intros Hk. destruct (Z_le_gt_dec e 200) as [Hle|Hgt]; [|lia].
    rewrite getKey_blocked in Hk by (by rewrite Hsub). by cbn in Hk.
  - intros Hgt Hin. rewrite getKey_open by (by rewrite Hsub).
    cbn [scan_keys keyDefTable keyDef.adcThreshold keyDef.id].
    repeat match goal with
           | |- context [?a <? ?b] => destruct (Z.ltb_spec a b); try lia
           end; vm_compute; discriminate.
  - intros Hle. apply getKey_blocked. by rewrite Hsub.
Qed.

Lemma timers_survive_clock_wrap_witness :
  next_frame 5 4 45 (mkDigit (UINT32_MOD - 10) 8 9 3 (scroll UP 8 9 2)) ≠ None
  <-> ANIMATION_FRAME_TIME <= 55.
Proof.
  apply (timers_survive_clock_wrap 5 4 100 (UINT32_MOD - 10) 55
           (mkDigit (UINT32_MOD - 10) 8 9 3 (scroll UP 8 9 2))).
  - unfold is_uint32, UINT32_MOD. lia.
  - unfold UINT32_MOD. lia.
  - reflexivity.
  - cbn. lia.
Defined.

(** ** The call that finds a new value *)

(** X9: the call in [ST_WAIT] that finds a new value returns false when
    some digit differs.  For a position whose digit differs it draws the
    first frame at once when the clock is at 50 ms or more (the timer of the
    digit is set to 0, not to the time of the call): the index becomes 1 and
    the bitmap is the glyph of the old digit, unchanged; when the clock is
    below 50 ms it draws nothing and the index stays 0. *)
Theorem new_value_first_frame s value now (i : nat) d :
  reachable s -> is_uint32 value -> is_uint32 now ->
  state s = ST_WAIT -> valueLast s ≠ value ->
  digits s !! i = Some d -> digit_at value i ≠ curr d ->
  let r := displayValue value now s in
  ret r = false ∧ state (after r) = ST_ANIM
  ∧ exists d',
      digits (after r) !! i = Some d'
      ∧ prev d' = curr d ∧ curr d' = digit_at value i
      ∧ charMap d' = charMap d ∧ charMap d' = glyph (prev d')
      ∧ (ANIMATION_FRAME_TIME <= now ->
         index d' = 1 ∧ timeLastFrame d' = now
         ∧ frames r !! i = Some (Some (scroll_dir (value / 10 ^ 8) (valueLast s))))
      ∧ (now < ANIMATION_FRAME_TIME ->
         index d' = 0 ∧ timeLastFrame d' = 0 ∧ frames r !! i = Some None).
Proof.
  intros Hreach Hv Hnow Hst Hne Hd Hdig. cbv zeta.
  pose proof (reachable_Inv _ Hreach) as HI.
  pose proof (inv_len _ HI) as Hlen.
  assert (ST_WAIT ≠ ST_INIT) as Hn by discriminate.
  rewrite <- Hst in Hn.
  pose proof (inv_digits _ HI Hn) as Hok. rewrite Forall_lookup in Hok.
  destruct (Hok i d Hd) as (_ & _ & _ & _ & Hg & _).
  pose proof (inv_wait _ HI Hst) as Hw. rewrite Forall_lookup in Hw.
  pose proof (Hw i d Hd) as Hs. unfold settled in Hs.
  set (d0 := start_digit (digit_at value i) d).
  assert (prev d0 ≠ curr d0) as Hne0 by (cbn; congruence).
  assert (sub32 now (timeLastFrame d0) = now) as Hsub.
  { cbn [d0 start_digit timeLastFrame]. unfold sub32.
    rewrite Z.sub_0_r. by apply Z.mod_small. }
  assert (exists d',
            digits (after (displayValue value now s)) !! i = Some d'
            ∧ d' = next_digit (value / 10 ^ 8) (valueLast s) now d0
            ∧ frames (displayValue value now s) !! i
              = Some (next_frame (value / 10 ^ 8) (valueLast s) now d0))
    as (d' & Hd' & Ed' & Hfr).
  { rewrite displayValue_accept by done.
    rewrite anim_case_digits, anim_case_frames by (by rewrite length_spread).
    rewrite !list_lookup_fmap, spread_lookup, Hd. cbn. by eexists. }
  assert (prev d' ≠ curr d' ∧ prev d' = curr d
          ∧ curr d' = digit_at value i ∧ charMap d' = charMap d
          ∧ (ANIMATION_FRAME_TIME <= now ->
             index d' = 1 ∧ timeLastFrame d' = now
             ∧ next_frame (value / 10 ^ 8) (valueLast s) now d0
               = Some (scroll_dir (value / 10 ^ 8) (valueLast s)))
          ∧ (now < ANIMATION_FRAME_TIME ->
             index d' = 0 ∧ timeLastFrame d' = 0
             ∧ next_frame (value / 10 ^ 8) (valueLast s) now d0 = None))
    as (Hne' & Hp' & Hc' & Hm' & Hdue' & Hearly').
  { subst d'. unfold next_digit, next_frame.
    destruct (animate_digit_cases (value / 10 ^ 8) (valueLast s) now d0)
      as [[-> [Hs0|Hearly]]|(_ & Hdue & ->)]; cbn [fst snd].
    - done.
    - rewrite Hsub in Hearly. cbn [d0 start_digit prev curr index charMap
                                   timeLastFrame].
      repeat split; try done; try congruence; lia.
    - rewrite Hsub in Hdue.
      cbn [d0 start_digit prev curr index charMap timeLastFrame].
      change (CHAR_ROWS <? incr8 0) with false. cbv iota.
      rewrite scroll_start, Hg by done.
      repeat split; try done; try congruence; try lia. }
  destruct (flag_settled_core s value now Hreach Hv Hnow) as (H1 & H2 & H3).
  assert (ret (displayValue value now s) = false) as Hret.
  { apply not_true_is_false. intros E.
    apply H1 in E. rewrite Forall_lookup in E.
    by specialize (E i d' Hd'). }
  split; [done|]. split.
  - destruct H3 as [H3 _].
    assert (state (after (displayValue value now s)) ≠ ST_WAIT) as H4
      by (intros E; apply H2 in E; congruence).
    by destruct (state (after (displayValue value now s))).
  - exists d'. split; [done|]. split; [done|]. split; [done|].
    split; [done|]. split; [rewrite Hm', Hp'; by apply Hg|].
    split; intros H; [destruct (Hdue' H) as (? & ? & E)
                     |destruct (Hearly' H) as (? & ? & E)];
      rewrite Hfr, E; done.
Qed.

Lemma new_value_first_frame_witness :
  let r := displayValue 12345680 2000 shown_12345679 in
  ret r = false ∧ state (after r) = ST_ANIM
  ∧ exists d',
      digits (after r) !! 0%nat = Some d'
      ∧ prev d' = 9 ∧ curr d' = digit_at 12345680 0
      ∧ charMap d' = glyph 9 ∧ charMap d' = glyph (prev d')
      ∧ (ANIMATION_FRAME_TIME <= 2000 ->
         index d' = 1 ∧ timeLastFrame d' = 2000
         ∧ frames r !! 0%nat
           = Some (Some (scroll_dir (12345680 / 10 ^ 8)
                                    (valueLast shown_12345679))))
      ∧ (2000 < ANIMATION_FRAME_TIME ->
         index d' = 0 ∧ timeLastFrame d' = 0 ∧ frames r !! 0%nat = Some None).
Proof.
  apply (new_value_first_frame shown_12345679 12345680 2000 0
           (mkDigit 1400 9 9 9 (glyph 9))).
  - apply shown_12345679_reachable.
  - unfold is_uint32, UINT32_MOD. lia.
  - unfold is_uint32, UINT32_MOD. lia.
  - reflexivity.
  - vm_compute. discriminate.
  - vm_compute. reflexivity.
  - vm_compute. discriminate.
Defined.

(** ** The direction within a call *)

(** X11: all the frames drawn in one call come from the same branch, and
    in [ST_ANIM] it is the "scroll up" branch exactly when the value
    supplied is above the settled value. *)
Theorem frames_share_direction value now s (i j : nat) di dj :
  length (digits s) = MAX_DIGITS ->
  frames (displayValue value now s) !! i = Some (Some di) ->
  frames (displayValue value now s) !! j = Some (Some dj) ->
  di = dj
  ∧ (state s = ST_ANIM -> (di = UP <-> valueLast s < value)).
Proof.
  intros Hlen Hi Hj. split.
  - destruct (state s) eqn:Hst.
    + revert Hi. unfold displayValue. rewrite Hst. cbn [frames].
      by rewrite lookup_nil.
    + destruct (Z.eq_dec (valueLast s) value) as [He|Hne].
      * revert Hi. unfold displayValue.
        rewrite Hst, He, Z.eqb_refl. cbn [negb frames].
        by rewrite lookup_nil.
      * revert Hi Hj. rewrite accept_frames by done.
        rewrite !list_lookup_fmap.
        destruct (_ !! i) as [d1|]; [|discriminate].
        destruct (_ !! j) as [d2|]; [|discriminate].
        cbn. intros [= H1] [= H2].
        apply next_frame_dir in H1, H2. congruence.
    + revert Hi Hj. rewrite anim_frames by done. rewrite !list_lookup_fmap.
      destruct (_ !! i) as [d1|]; [|discriminate].
      destruct (_ !! j) as [d2|]; [|discriminate].
      cbn. intros [= H1] [= H2].
      apply next_frame_dir in H1, H2. congruence.
  - intros Hst. revert Hi. rewrite anim_frames by done.
    rewrite list_lookup_fmap.
    destruct (_ !! i) as [d1|]; [|discriminate].
    cbn. intros [= H1]. apply next_frame_dir in H1. subst di.
    unfold scroll_dir. destruct (Z.ltb_spec (valueLast s) value).
    + split; [done | done].
    + split; [discriminate | lia].
Qed.

Lemma frames_share_direction_witness :
  UP = UP
  ∧ (state (after (displayValue 12345680 2000 shown_12345679)) = ST_ANIM ->
     (UP = UP
      <-> valueLast (after (displayValue 12345680 2000 shown_12345679))
          < 12345680)).
Proof.
  apply (frames_share_direction 12345680 2050
           (after (displayValue 12345680 2000 shown_12345679)) 0 1 UP UP);
    vm_compute; reflexivity.
Defined.

(** ** The main loop *)

(** X7: one pass of [loop] changes the counter only when a key is accepted,
    that is more than 200 ms after the last accepted key: a sample in
    [60, 160) adds one, a sample in [160, 360) takes one off, each modulo
    2^32; any other accepted key (below 60, or in [360, 760)) leaves the
    counter alone but restarts the 200 ms; the display is then called with
    the new counter. *)
Theorem loop_counts_keys adc now s :
  let s' := loop adc now s in
  display_of s' = after (displayValue (value_of s') now (display_of s))
  ∧ (sub32 now (lastCheck_of s) <= 200 ->
     value_of s' = value_of s ∧ lastCheck_of s' = lastCheck_of s)
  ∧ (200 < sub32 now (lastCheck_of s) ->
     (60 <= adc < 160 ->
      value_of s' = (value_of s + 1) mod UINT32_MOD ∧ lastCheck_of s' = now)
     ∧ (160 <= adc < 360 ->
        value_of s' = (value_of s - 1) mod UINT32_MOD ∧ lastCheck_of s' = now)
     ∧ (adc < 60 ∨ 360 <= adc < 760 ->
        value_of s' = value_of s ∧ lastCheck_of s' = now)
     ∧ (760 <= adc ->
        value_of s' = value_of s ∧ lastCheck_of s' = lastCheck_of s)).
Proof.
  cbv zeta. split; [reflexivity|]. split.
  - intros H. unfold loop. rewrite (getKey_blocked _ _ _ H). by cbn.
  - intros H. unfold loop, getKey.
    destruct (Z.ltb_spec 200 (sub32 now (lastCheck_of s))); [|lia].
    cbn [scan_keys keyDefTable keyDef.adcThreshold keyDef.id fst snd
         value_of lastCheck_of].
    repeat split; intros;
      repeat match goal with
             | |- context [?a <? ?b] => destruct (Z.ltb_spec a b); try lia
             end; reflexivity.
Qed.

Lemma loop_counts_keys_witness :
  value_of (loop 100 300 sketch_start) = (12345678 + 1) mod UINT32_MOD
  ∧ lastCheck_of (loop 100 300 sketch_start) = 300.
Proof.
  apply (loop_counts_keys 100 300 sketch_start); [vm_compute; reflexivity|lia].
Defined.

(** ** Holding a value *)

Lemma shows_settled v ds : shows v ds -> Forall settled ds.
Proof.
  intros H. apply Forall_lookup. intros i d Hd. by destruct (H i d Hd).
Qed.

Lemma shows_step v now s :
  length (digits s) = MAX_DIGITS -> state s = ST_WAIT ->
  shows v (digits s) ->
  let r := displayValue v now s in
  ret r = true ∧ drawn (frames r) = false ∧ state (after r) = ST_WAIT
  ∧ shows v (digits (after r))
  ∧ charMap <$> digits (after r) = charMap <$> digits s.
Proof.
  intros Hlen Hst Hsh. cbv zeta.
  destruct (idle_same_digits s v now Hst Hlen (shows_settled v _ Hsh))
    as (H1 & H2 & H3 & Hp & Hc & Hm).
  { intros i d Hd. by destruct (Hsh i d Hd). }
  split; [done|]. split; [done|]. split; [done|]. split; [|done].
  intros i d Hd'.
  assert ((prev <$> digits (after (displayValue v now s))) !! i
          = Some (prev d)) as Ep by (by rewrite list_lookup_fmap, Hd').
  assert ((curr <$> digits (after (displayValue v now s))) !! i
          = Some (curr d)) as Ec by (by rewrite list_lookup_fmap, Hd').
  rewrite Hp, list_lookup_fmap in Ep. rewrite Hc, list_lookup_fmap in Ec.
  destruct (digits s !! i) as [d0|] eqn:Hd0; [|discriminate].
  cbn in Ep, Ec. injection Ep as Ep. injection Ec as Ec.
  destruct (Hsh i d0 Hd0). split; congruence.
Qed.

Lemma shows_trace v times : forall s,
  length (digits s) = MAX_DIGITS -> state s = ST_WAIT ->
  shows v (digits s) ->
  Forall (λ r, ret r = true ∧ drawn (frames r) = false
               ∧ state (after r) = ST_WAIT ∧ shows v (digits (after r))
               ∧ charMap <$> digits (after r) = charMap <$> digits s)
         (trace ((λ t, (v, t)) <$> times) s)
  ∧ state (run ((λ t, (v, t)) <$> times) s) = ST_WAIT
  ∧ shows v (digits (run ((λ t, (v, t)) <$> times) s)).
Proof.
  induction times as [|t times IH]; intros s Hlen Hst Hsh; [by split|].
  cbn [fmap list_fmap trace run].
  destruct (shows_step v t s Hlen Hst Hsh) as (H1 & H2 & H3 & H4 & H5).
  destruct (IH (after (displayValue v t s))) as (IH1 & IH2 & IH3);
    [by apply displayValue_length | done | done |].
  split; [|by split].
  constructor; [done|].
  eapply Forall_impl; [exact IH1|].
  intros r (Ha & Hb & Hc & Hd & E).
  split; [done|]. split; [done|]. split; [done|]. split; [done|].
  by rewrite E.
Qed.

(** X5: in [ST_WAIT] with every digit settled on the digits of v, any
    number of calls with v, at any times, return true, draw nothing and
    keep the digits and their bitmaps, also when [valueLast] differs from
    v, as it does after the first call, which does not record its value. *)
Theorem shown_value_stays s v (times : list Z) :
  length (digits s) = MAX_DIGITS -> state s = ST_WAIT ->
  shows v (digits s) ->
  Forall (λ r, ret r = true ∧ drawn (frames r) = false
               ∧ state (after r) = ST_WAIT ∧ shows v (digits (after r))
               ∧ charMap <$> digits (after r) = charMap <$> digits s)
         (trace ((λ t, (v, t)) <$> times) s).
Proof. intros Hlen Hst Hsh. by apply shows_trace. Qed.

Lemma shown_value_stays_witness :
  let s := after (displayValue 12345678 0 power_on) in
  valueLast s ≠ 12345678
  ∧ Forall (λ r, ret r = true ∧ drawn (frames r) = false
                 ∧ state (after r) = ST_WAIT
                 ∧ shows 12345678 (digits (after r))
                 ∧ charMap <$> digits (after r) = charMap <$> digits s)
           (trace ((λ t, (12345678, t)) <$> [10; 20]) s).
Proof.
  cbv zeta. split; [vm_compute; discriminate|].
  apply (shown_value_stays (after (displayValue 12345678 0 power_on))
           12345678 [10; 20]); try reflexivity.
  intros i d H.
  do 8 (destruct i as [|i];
        [vm_compute in H; injection H as <-; split; vm_compute; reflexivity|]).
  vm_compute in H. discriminate.
Defined.

Lemma next_digit_rolling_due v value vl now k t (i : nat) d :
  0 <= k <= CHAR_ROWS -> ANIMATION_FRAME_TIME <= sub32 now t ->
  curr d = digit_at v i
  ∧ (prev d = curr d ∨ (index d = k ∧ timeLastFrame d = t)) ->
  let d' := next_digit value vl now d in
  curr d' = digit_at v i
  ∧ (prev d' = curr d'
     ∨ (k < CHAR_ROWS ∧ index d' = k + 1 ∧ timeLastFrame d' = now)).
Proof.
  intros Hk Hdue [Hc Hroll]. cbv zeta. unfold next_digit.
  destruct (animate_digit_cases value vl now d)
    as [[-> [Hs|Hearly]]|(Hne & _ & ->)]; cbn [fst].
  - split; [done | by left].
  - destruct Hroll as [Hs|[_ Ht]]; [split; [done | by left]|].
    rewrite Ht in Hearly. lia.
  - destruct Hroll as [Hs|[Hi Ht]]; [done|].
    cbn [prev curr index timeLastFrame]. split; [done|].
    unfold CHAR_ROWS in *.
    assert (incr8 (index d) = k + 1) as ->.
    { rewrite Hi. unfold incr8, UINT8_MOD. apply Z.mod_small. lia. }
    destruct (Z.ltb_spec 8 (k + 1)); [by left | right; lia].
Qed.

Lemma next_digit_rolling_early value vl now k t d :
  sub32 now t < ANIMATION_FRAME_TIME ->
  prev d = curr d ∨ (index d = k ∧ timeLastFrame d = t) ->
  next_digit value vl now d = d.
Proof.
  intros Hearly Hroll. unfold next_digit.
  destruct (animate_digit_cases value vl now d)
    as [[-> _]|(Hne & Hdue & _)]; [done|].
  destruct Hroll as [Hs|[_ Ht]]; [done|]. rewrite Ht in Hdue. lia.
Qed.

(** One pass of [case ST_ANIM] over digits that roll in step. *)
Lemma anim_case_rolling v value now k t ds vl l :
  length ds = MAX_DIGITS -> rolling v k t ds -> 0 <= k <= CHAR_ROWS ->
  let r := anim_case value now ST_ANIM ds vl l in
  (ANIMATION_FRAME_TIME <= sub32 now t ->
   (state (after r) = ST_WAIT ∧ shows v (digits (after r))
    ∧ valueLast (after r) = value)
   ∨ (k < CHAR_ROWS ∧ state (after r) = ST_ANIM
      ∧ rolling v (k + 1) now (digits (after r))))
  ∧ (sub32 now t < ANIMATION_FRAME_TIME ->
     (state (after r) = ST_WAIT ∧ shows v (digits (after r))
      ∧ valueLast (after r) = value)
     ∨ (state (after r) = ST_ANIM ∧ rolling v k t (digits (after r)))).
Proof.
  intros Hlen Hroll Hk. cbv zeta. rewrite anim_case_eq by done. cbv zeta.
  set (ds' := next_digit value vl now <$> ds).
  split.
  - intros Hdue.
    assert (forall (i : nat) d', ds' !! i = Some d' ->
              curr d' = digit_at v i
              ∧ (prev d' = curr d'
                 ∨ (k < CHAR_ROWS ∧ index d' = k + 1
                    ∧ timeLastFrame d' = now))) as Hpt.
    { intros i d'. unfold ds'. rewrite list_lookup_fmap.
      destruct (ds !! i) as [d|] eqn:Hd; [|discriminate].
      cbn. intros [= <-].
      apply (next_digit_rolling_due v value vl now k t i d Hk Hdue).
      by apply Hroll. }
    destruct (forallb settledb ds') eqn:E; cbn [after state digits valueLast].
    + left. split; [done|]. split; [|done].
      apply forallb_settled in E. rewrite Forall_lookup in E.
      intros i d' Hd'. split; [by apply (E i) | by apply (Hpt i)].
    + right.
      assert (k < CHAR_ROWS) as Hlt.
      { destruct (Z_lt_le_dec k CHAR_ROWS) as [|Hge]; [done|].
        exfalso. assert (Forall settled ds') as Hall.
        { apply Forall_lookup. intros i d' Hd'.
          destruct (Hpt i d' Hd') as [_ [Hs|[Hlt _]]]; [done | lia]. }
        apply settled_forallb in Hall. congruence. }
      split; [done|]. split; [done|].
      intros i d' Hd'. destruct (Hpt i d' Hd') as [Hc [Hs|(_ & Hi & Ht)]].
      * split; [done | by left].
      * split; [done | by right].
  - intros Hearly.
    assert (ds' = ds) as ->.
    { unfold ds'. apply list_eq. intros i. rewrite list_lookup_fmap.
      destruct (ds !! i) as [d|] eqn:Hd; [|done]. cbn. f_equal.
      apply (next_digit_rolling_early value vl now k t d Hearly).
      by destruct (Hroll i d Hd). }
    destruct (forallb settledb ds) eqn:E; cbn [after state digits valueLast].
    + left. split; [done|]. split; [|done].
      apply forallb_settled in E. rewrite Forall_lookup in E.
      intros i d Hd. split; [by apply (E i) | by apply (Hroll i)].
    + right. by split.
Qed.

Lemma paced_uint32 times : paced times -> Forall is_uint32 times.
Proof.
  induction times as [|t times IH]; [constructor|].
  cbn [paced]. intros (Ht & _ & Hp). constructor; [done | by apply IH].
Qed.

(** Digits rolling in step reach their target within the frames that are
    left, when the calls keep the pace and supply the same value. *)
Lemma rolling_run v ts : forall s k t,
  length (digits s) = MAX_DIGITS -> state s = ST_ANIM ->
  rolling v k t (digits s) -> 0 <= k <= CHAR_ROWS ->
  paced (t :: ts) -> (Z.to_nat (CHAR_ROWS + 1 - k) <= length ts)%nat ->
  let s' := run ((λ t, (v, t)) <$> ts) s in
  state s' = ST_WAIT ∧ shows v (digits s') ∧ valueLast s' = v.
Proof.
  induction ts as [|t1 ts IH]; intros s k t Hlen Hst Hroll Hk Hp Hn.
  { unfold CHAR_ROWS in *. cbn in Hn. lia. }
  cbn [fmap list_fmap run]. cbv zeta.
  cbn [paced] in Hp. destruct Hp as (Ht & Hnext & Ht1 & Hnext1 & Hp).
  rewrite displayValue_anim by done.
  destruct (anim_case_rolling v v t1 k t (digits s) (valueLast s) (lcd s)
              Hlen Hroll Hk) as [Hdue _].
  destruct (Hdue (sub32_paced t t1 Ht Ht1 Hnext))
    as [(Hst' & Hsh' & Hvl')|(Hlt & Hst' & Hroll')].
  - destruct (idle_calls _ v Hst' Hvl') as [_ Hidle].
    destruct (Hidle ts) as [_ ->].
    split; [exact Hst'|]. split; [exact Hsh' | exact Hvl'].
  - assert (length (digits (after (anim_case v t1 ST_ANIM (digits s)
                                     (valueLast s) (lcd s)))) = MAX_DIGITS)
      as Hlen' by (rewrite anim_case_digits by done; by rewrite length_fmap).
    assert (0 <= k + 1 <= CHAR_ROWS) as Hk' by (unfold CHAR_ROWS in *; lia).
    assert (paced (t1 :: ts)) as Hp'
      by (cbn [paced]; split; [done|]; split; done).
    assert (Z.to_nat (CHAR_ROWS + 1 - (k + 1)) <= length ts)%nat as Hn'
      by (unfold CHAR_ROWS in *; cbn [length] in Hn; lia).
    exact (IH _ (k + 1) t1 Hlen' Hst' Hroll' Hk' Hp' Hn').
Qed.

Lemma started_digit_unsettled value vl now k d :
  prev d ≠ k ->
  prev (next_digit value vl now (start_digit k d)) = prev d
  ∧ curr (next_digit value vl now (start_digit k d)) = k
  ∧ prev (next_digit value vl now (start_digit k d))
    ≠ curr (next_digit value vl now (start_digit k d)).
Proof.
  intros Hne. unfold next_digit.
  destruct (animate_digit_cases value vl now (start_digit k d))
    as [[-> _]|(_ & _ & ->)]; cbn [fst prev curr index start_digit].
  - done.
  - change (CHAR_ROWS <? incr8 0) with false. by cbv iota.
Qed.

Lemma held_value_core s v t0 ts :
  reachable s -> state s = ST_WAIT -> valueLast s ≠ v -> is_uint32 v ->
  paced (t0 :: ts) -> (9 <= length ts)%nat ->
  let s' := run ((v, t0) :: ((λ t, (v, t)) <$> ts)) s in
  state s' = ST_WAIT ∧ shows v (digits s')
  ∧ ((exists (i : nat) d, digits s !! i = Some d ∧ digit_at v i ≠ curr d) ->
     valueLast s' = v).
Proof.
  intros Hreach Hst Hne Hv Hp Hn. cbv zeta. cbn [run].
  pose proof (reachable_Inv _ Hreach) as HI.
  pose proof (inv_len _ HI) as Hlen.
  pose proof (inv_wait _ HI Hst) as Hw. rewrite Forall_lookup in Hw.
  pose proof Hp as Hp0. cbn [paced] in Hp0.
  destruct Hp0 as (Ht0 & Hnext & Hpts).
  set (ds1 := spread start_digit v (digits s)).
  assert (length ds1 = MAX_DIGITS) as Hlen1
    by (unfold ds1; by rewrite length_spread).
  assert (rolling v 0 0 ds1) as Hroll.
  { intros i d1. unfold ds1. rewrite spread_lookup.
    destruct (digits s !! i) as [d|]; [|discriminate].
    cbn. intros [= <-]. cbn. split; [done | by right]. }
  assert (length (digits (after (displayValue v t0 s))) = MAX_DIGITS)
    as Hlen' by (by apply displayValue_length).
  (* a digit that differs keeps the state in [ST_ANIM] *)
  assert ((exists (i : nat) d, digits s !! i = Some d ∧ digit_at v i ≠ curr d) ->
          state (after (displayValue v t0 s)) ≠ ST_WAIT) as Hdiff.
  { intros (i & d & Hd & Hdig) Hwait.
    destruct (flag_settled_core s v t0 Hreach Hv Ht0) as (H1 & H2 & _).
    apply H2, H1 in Hwait. rewrite Forall_lookup in Hwait.
    revert Hwait. rewrite displayValue_accept by done.
    rewrite anim_case_digits by done. intros Hwait.
    specialize (Hwait i (next_digit (v / 10 ^ 8) (valueLast s) t0
                           (start_digit (digit_at v i) d))).
    pose proof (Hw i d Hd) as Hs. unfold settled in Hs.
    destruct (started_digit_unsettled (v / 10 ^ 8) (valueLast s) t0
                (digit_at v i) d) as (_ & _ & Hun); [congruence|].
    apply Hun, Hwait.
    unfold ds1. by rewrite list_lookup_fmap, spread_lookup, Hd. }
  assert (0 <= 0 <= CHAR_ROWS) as Hk0 by (unfold CHAR_ROWS; lia).
  destruct (anim_case_rolling v (v / 10 ^ 8) t0 0 0 ds1 (valueLast s) (lcd s)
              Hlen1 Hroll Hk0) as [Hdue Hearly].
  pose proof (displayValue_accept v t0 s Hst Hne Hlen) as Eacc.
  fold ds1 in Eacc. rewrite <- Eacc in Hdue, Hearly.
  assert (sub32 t0 0 = t0) as Hsub.
  { unfold sub32. rewrite Z.sub_0_r. by apply Z.mod_small. }
  rewrite Hsub in Hdue, Hearly.
  assert (forall s1,
            s1 = after (displayValue v t0 s) ->
            state s1 = ST_WAIT -> shows v (digits s1) ->
            state (run ((λ t, (v, t)) <$> ts) s1) = ST_WAIT
            ∧ shows v (digits (run ((λ t, (v, t)) <$> ts) s1))
            ∧ ((exists (i : nat) d,
                  digits s !! i = Some d ∧ digit_at v i ≠ curr d) ->
               valueLast (run ((λ t, (v, t)) <$> ts) s1) = v)) as Hdone.
  { intros s1 -> Hst1 Hsh1.
    destruct (shows_trace v ts _ Hlen' Hst1 Hsh1) as (_ & H2 & H3).
    split; [done|]. split; [done|]. intros Hex. by destruct (Hdiff Hex). }
  destruct (Z_lt_le_dec t0 ANIMATION_FRAME_TIME) as [Hlt|Hge].
  - destruct (Hearly Hlt) as [(Hst1 & Hsh1 & _)|(Hst1 & Hroll1)].
    + by apply Hdone.
    + destruct (rolling_run v ts _ 0 0 Hlen' Hst1 Hroll1 Hk0)
        as (H1 & H2 & H3); [| |done].
      * cbn [paced]. split; [unfold is_uint32, UINT32_MOD; lia|].
        split; [|done].
        destruct ts as [|t1 ts]; [done|]. destruct Ht0. lia.
      * unfold CHAR_ROWS. cbn. lia.
  - destruct (Hdue Hge) as [(Hst1 & Hsh1 & _)|(_ & Hst1 & Hroll1)].
    + by apply Hdone.
    + destruct (rolling_run v ts _ (0 + 1) t0 Hlen' Hst1 Hroll1)
        as (H1 & H2 & H3); [| |  |done].
      * unfold CHAR_ROWS. lia.
      * done.
      * unfold CHAR_ROWS. cbn. lia.
Qed.

(** X4: when a call in [ST_WAIT] finds a new value v and v is then
    supplied on nine or more further calls, the calls being at least 50 ms
    apart, the sketch is back in [ST_WAIT] with every digit settled on the
    digit of v at its position, every bitmap the table glyph of that digit
    and shown in its cell; if some digit had to change, v is recorded as
    the settled value. *)
Theorem held_value_gets_shown s v t0 ts :
  reachable s -> state s = ST_WAIT -> valueLast s ≠ v -> is_uint32 v ->
  paced (t0 :: ts) -> (9 <= length ts)%nat ->
  let s' := run ((v, t0) :: ((λ t, (v, t)) <$> ts)) s in
  state s' = ST_WAIT
  ∧ (forall i : nat, (i < MAX_DIGITS)%nat ->
       exists d,
         digits s' !! i = Some d
         ∧ prev d = curr d ∧ curr d = digit_at v i
         ∧ digitsMap !! Z.to_nat (curr d) = Some (charMap d)
         ∧ lcd_shown DISP_R (DISP_C + (7 - Z.of_nat i)) (lcd s')
           = Some (charMap d))
  ∧ ((exists (i : nat) d, digits s !! i = Some d ∧ digit_at v i ≠ curr d) ->
     valueLast s' = v).
Proof.
  intros Hreach Hst Hne Hv Hp Hn.
  destruct (held_value_core s v t0 ts Hreach Hst Hne Hv Hp Hn)
    as (Hst' & Hsh' & Hvl').
  cbv zeta in *.
  set (s' := run ((v, t0) :: ((λ t, (v, t)) <$> ts)) s) in *.
  assert (reachable s') as Hreach'.
  { apply reachable_run; [done|].
    apply paced_uint32 in Hp.
    change ((v, t0) :: ((λ t, (v, t)) <$> ts))
      with ((λ t, (v, t)) <$> (t0 :: ts)).
    apply Forall_fmap. eapply Forall_impl; [exact Hp|].
    intros t Ht. by split. }
  split; [done|]. split; [|done].
  intros i Hi.
  assert (state s' ≠ ST_INIT) as Hn' by (rewrite Hst'; discriminate).
  destruct (display_mirror_core s' i Hreach' Hn' Hi)
    as [(d & Hd & _ & Hshown & Hglyph) _].
  destruct (Hsh' i d Hd) as [Hs Hc].
  exists d. repeat split; try done. by apply Hglyph.
Qed.

Lemma held_value_gets_shown_witness :
  let s' := run ((12345680, 2000)
                 :: ((λ t, (12345680, t)) <$> every 50 2050 9))
                shown_12345679 in
  state s' = ST_WAIT
  ∧ (forall i : nat, (i < MAX_DIGITS)%nat ->
       exists d,
         digits s' !! i = Some d
         ∧ prev d = curr d ∧ curr d = digit_at 12345680 i
         ∧ digitsMap !! Z.to_nat (curr d) = Some (charMap d)
         ∧ lcd_shown DISP_R (DISP_C + (7 - Z.of_nat i)) (lcd s')
           = Some (charMap d))
  ∧ ((exists (i : nat) d,
        digits shown_12345679 !! i = Some d
        ∧ digit_at 12345680 i ≠ curr d) ->
     valueLast s' = 12345680).
Proof.
  apply (held_value_gets_shown shown_12345679 12345680 2000
           (every 50 2050 9)).
  - apply shown_12345679_reachable.
  - reflexivity.
  - vm_compute. discriminate.
  - unfold is_uint32, UINT32_MOD. lia.
  - vm_compute. repeat split; discriminate.
  - vm_compute. lia.
Defined.

(** ** [updateDisplay] on its own *)

Lemma updateDisplay_init_row r c ds l :
  ddram (updateDisplay r c true ds l) !! Z.to_nat r
  = (λ line,
       <[Z.to_nat (c + 7) := 7]>
         (<[Z.to_nat (c + 6) := 6]>
            (<[Z.to_nat (c + 5) := 5]>
               (<[Z.to_nat (c + 4) := 4]>
                  (<[Z.to_nat (c + 3) := 3]>
                     (<[Z.to_nat (c + 2) := 2]>
                        (<[Z.to_nat (c + 1) := 1]>
                           (<[Z.to_nat (c + 0) := 0]> line))))))))
      <$> ddram l !! Z.to_nat r.
Proof.
  unfold updateDisplay. cbn [for_loop MAX_DIGITS].
  cbn [lcd_write lcd_setCursor lcd_createChar ddram cursor_col cursor_row
       cgram Z.of_nat Pos.of_succ_nat Pos.succ].
  rewrite !list_lookup_alter_eq.
  by destruct (ddram l !! Z.to_nat r).
Qed.

Lemma updateDisplay_init_other r c ds l (n : nat) :
  n ≠ Z.to_nat r ->
  ddram (updateDisplay r c true ds l) !! n = ddram l !! n.
Proof.
  intros Hn. unfold updateDisplay. cbn [for_loop MAX_DIGITS].
  cbn [lcd_write lcd_setCursor lcd_createChar ddram cursor_col cursor_row
       cgram].
  by rewrite !list_lookup_alter_ne by done.
Qed.

(** X12: [updateDisplay] defines custom glyph i as the bitmap of digit
    position [MAX_DIGITS - 1 - i], for i = 0 .. 7.  Without [init] it writes
    no cell and does not move the cursor.  With [init] it writes the codes
    0 .. 7 into the eight cells from column c of line r (as far as they
    exist) and nothing else: the other lines and the other cells of line r
    are as before. *)
Theorem updateDisplay_effect r c ds l :
  length ds = MAX_DIGITS -> length (cgram l) = 8%nat -> 0 <= r -> 0 <= c ->
  (forall init, cgram (updateDisplay r c init ds l) = charMap <$> reverse ds)
  ∧ (ddram (updateDisplay r c false ds l) = ddram l
     ∧ cursor_col (updateDisplay r c false ds l) = cursor_col l
     ∧ cursor_row (updateDisplay r c false ds l) = cursor_row l)
  ∧ (forall j : nat, (j < MAX_DIGITS)%nat ->
       is_Some (lcd_cell r (c + Z.of_nat j) l) ->
       lcd_cell r (c + Z.of_nat j) (updateDisplay r c true ds l)
       = Some (Z.of_nat j))
  ∧ (forall row col, 0 <= row -> 0 <= col ->
       row ≠ r ∨ col < c ∨ c + 8 <= col ->
       lcd_cell row col (updateDisplay r c true ds l) = lcd_cell row col l).
Proof.
  intros Hds Hcg Hr Hc. split; [|split; [|split]].
  - intros init. by apply updateDisplay_cgram.
  - by split.
  - intros j Hj [x Hx]. unfold lcd_cell in *.
    rewrite updateDisplay_init_row.
    destruct (ddram l !! Z.to_nat r) as [line|]; [|discriminate].
    cbn in *. apply lookup_lt_Some in Hx.
    unfold MAX_DIGITS in Hj.
    do 8 (destruct j as [|j];
          [repeat (rewrite list_lookup_insert_ne by lia);
           rewrite list_lookup_insert_eq
             by (rewrite ?length_insert; cbn in Hx; lia);
           reflexivity|]).
    lia.
  - intros row col Hrow Hcol Hout. unfold lcd_cell.
    destruct (Z.eq_dec row r) as [->|Hne].
    + rewrite updateDisplay_init_row.
      destruct (ddram l !! Z.to_nat r) as [line|]; [|done].
      cbn. destruct Hout as [Hout|Hout]; [done|].
      by repeat (rewrite list_lookup_insert_ne by lia).
    + rewrite updateDisplay_init_other by lia. done.
Qed.

Lemma updateDisplay_effect_witness :
  lcd_cell DISP_R (DISP_C + Z.of_nat 3)
    (updateDisplay DISP_R DISP_C true (digits shown_12345679) lcd_clear)
  = Some (Z.of_nat 3).
Proof.
  apply (updateDisplay_effect DISP_R DISP_C (digits shown_12345679) lcd_clear);
    try reflexivity; try (unfold DISP_R, DISP_C; lia).
  - unfold MAX_DIGITS. lia.
  - vm_compute. by eexists.
Defined.

(** ** The frames of a roll *)

Lemma quiet_when_settled v (i : nat) d ts : forall s,
  length (digits s) = MAX_DIGITS ->
  state s = ST_ANIM ∨ (state s = ST_WAIT ∧ valueLast s = v) ->
  digits s !! i = Some d -> prev d = curr d ->
  bitmaps_drawn i (trace ((λ t, (v, t)) <$> ts) s) = [].
Proof.
  induction ts as [|t1 ts IH]; intros s Hlen Hst Hd Hs; [done|].
  cbn [fmap list_fmap trace]. unfold bitmaps_drawn.
  cbn [fmap list_fmap concat]. fold (bitmaps_drawn i).
  destruct Hst as [Hst|[Hst Hvl]].
  - rewrite displayValue_anim by done.
    assert (bitmap_drawn i (anim_case v t1 ST_ANIM (digits s) (valueLast s)
                              (lcd s)) = []) as ->.
    { unfold bitmap_drawn.
      rewrite anim_case_frames, list_lookup_fmap, Hd by done. cbn.
      unfold next_frame. by rewrite animate_digit_settled. }
    cbn [app]. apply IH; try done.
    + rewrite anim_case_digits by done. by rewrite length_fmap.
    + destruct (anim_case_flag v t1 (digits s) (valueLast s) (lcd s) Hlen)
        as (_ & _ & [H|H] & _ & H5); [right | by left].
      split; [done | by apply H5].
    + rewrite anim_case_digits, list_lookup_fmap, Hd by done. cbn.
      unfold next_digit. by rewrite animate_digit_settled.
  - destruct (idle_calls s v Hst Hvl) as [-> _]. cbn [after].
    unfold bitmap_drawn at 1. cbn [frames]. rewrite lookup_nil. cbn [app].
    apply IH; try done. by right.
Qed.

Lemma seqZ_step k n : 0 < n -> seqZ k n = k :: seqZ (k + 1) (n - 1).
Proof. intros H. rewrite seqZ_cons by done. f_equal. Qed.

(** The frames a digit in mid roll still draws when the value is held. *)
Lemma roll_frames v (i : nat) a b ts : forall s k t d,
  length (digits s) = MAX_DIGITS -> state s = ST_ANIM ->
  digits s !! i = Some d -> prev d = a -> curr d = b -> a ≠ b ->
  index d = k -> 0 <= k <= CHAR_ROWS -> timeLastFrame d = t ->
  paced (t :: ts) -> (Z.to_nat (CHAR_ROWS + 1 - k) <= length ts)%nat ->
  bitmaps_drawn i (trace ((λ t, (v, t)) <$> ts) s)
  = (λ k, scroll (scroll_dir v (valueLast s)) a b k)
      <$> seqZ k (CHAR_ROWS + 1 - k).
Proof.
  induction ts as [|t1 ts IH];
    intros s k t d Hlen Hst Hd Hp Hc Hab Hi Hk Ht Hpaced Hn.
  { unfold CHAR_ROWS in *. cbn in Hn. lia. }
  cbn [fmap list_fmap trace]. unfold bitmaps_drawn.
  cbn [fmap list_fmap concat]. fold (bitmaps_drawn i).
  cbn [paced] in Hpaced.
  destruct Hpaced as (Hut & Hnext & Hut1 & Hnext1 & Hpts).
  assert (prev d ≠ curr d) as Hne by congruence.
  assert (ANIMATION_FRAME_TIME <= sub32 t1 (timeLastFrame d)) as Hdue
    by (rewrite Ht; by apply sub32_paced).
  pose proof (animate_digit_fires v (valueLast s) t1 d Hne Hdue) as Efire.
  assert (incr8 (index d) = k + 1) as Einc.
  { rewrite Hi. unfold incr8, UINT8_MOD, CHAR_ROWS in *.
    apply Z.mod_small. lia. }
  rewrite Einc, Hp, Hc, Hi in Efire.
  rewrite displayValue_anim by done.
  set (r := anim_case v t1 ST_ANIM (digits s) (valueLast s) (lcd s)).
  assert (digits (after r) !! i
          = Some (next_digit v (valueLast s) t1 d)) as Hd'.
  { unfold r. by rewrite anim_case_digits, list_lookup_fmap, Hd by done. }
  assert (length (digits (after r)) = MAX_DIGITS) as Hlen'.
  { unfold r. rewrite anim_case_digits by done. by rewrite length_fmap. }
  assert (bitmap_drawn i r = [scroll (scroll_dir v (valueLast s)) a b k])
    as ->.
  { unfold bitmap_drawn. rewrite Hd'. unfold r.
    rewrite anim_case_frames, list_lookup_fmap, Hd by done. cbn.
    unfold next_frame, next_digit. by rewrite Efire. }
  rewrite (seqZ_step k) by (unfold CHAR_ROWS in *; lia).
  cbn [fmap list_fmap app]. f_equal.
  replace (CHAR_ROWS + 1 - k - 1) with (CHAR_ROWS + 1 - (k + 1)) by lia.
  destruct (anim_case_flag v t1 (digits s) (valueLast s) (lcd s) Hlen)
    as (H1 & H2 & H3 & H4 & H5). fold r in H1, H2, H3, H4, H5.
  destruct (Z.eq_dec k CHAR_ROWS) as [->|Hk8].
  - (* that was the last frame *)
    replace (CHAR_ROWS + 1 - (CHAR_ROWS + 1)) with 0 by lia. cbn.
    apply (quiet_when_settled v i (next_digit v (valueLast s) t1 d));
      try done.
    + destruct H3 as [H|H]; [right | by left]. split; [done | by apply H5].
    + unfold next_digit. rewrite Efire. reflexivity.
  - assert (prev (next_digit v (valueLast s) t1 d)
            ≠ curr (next_digit v (valueLast s) t1 d)) as Hne'.
    { unfold next_digit. rewrite Efire. cbn [fst prev curr].
      destruct (Z.ltb_spec CHAR_ROWS (k + 1)); [lia | done]. }
    assert (state (after r) = ST_ANIM) as Hst'.
    { destruct H3 as [H|H]; [|done]. exfalso.
      apply H2, H1 in H. rewrite Forall_lookup in H.
      by apply Hne', (H i). }
    rewrite <- (H4 Hst').
    set (d' := next_digit v (valueLast s) t1 d) in *.
    assert (prev d' = a ∧ curr d' = b ∧ index d' = k + 1
            ∧ timeLastFrame d' = t1) as (Ep & Ec & Ei & Et).
    { unfold d', next_digit. rewrite Efire. cbn [fst prev curr index
                                                   timeLastFrame].
      destruct (Z.ltb_spec CHAR_ROWS (k + 1)); [lia | done]. }
    assert (0 <= k + 1 <= CHAR_ROWS) as Hk' by lia.
    assert (paced (t1 :: ts)) as Hpaced'
      by (cbn [paced]; split; [done|]; split; done).
    assert (Z.to_nat (CHAR_ROWS + 1 - (k + 1)) <= length ts)%nat as Hn'
      by (unfold CHAR_ROWS in *; cbn [length] in Hn; lia).
    exact (IH (after r) (k + 1) t1 d' Hlen' Hst' Hd' Ep Ec Hab Ei Hk' Et
              Hpaced' Hn').
Qed.

(** X13: when a call in [ST_WAIT] finds a new value v and v is then
    supplied on nine or more further calls at least 50 ms apart, the
    bitmaps drawn for a position whose digit changes from a to b are, in
    this order and with none left out or repeated, the nine blends of a and
    b at progress 0, 1, ..., [CHAR_ROWS], all of one direction: upwards when
    v is above the settled value, downwards otherwise. *)
Theorem held_value_frames s v t0 ts (i : nat) d :
  reachable s -> state s = ST_WAIT -> valueLast s ≠ v -> is_uint32 v ->
  paced (t0 :: ts) -> (9 <= length ts)%nat ->
  digits s !! i = Some d -> digit_at v i ≠ curr d ->
  bitmaps_drawn i (trace ((v, t0) :: ((λ t, (v, t)) <$> ts)) s)
  = (λ k, scroll (scroll_dir v (valueLast s)) (curr d) (digit_at v i) k)
      <$> seqZ 0 (CHAR_ROWS + 1).
Proof.
  intros Hreach Hst Hne Hv Hp Hn Hd Hdig.
  pose proof (reachable_Inv _ Hreach) as HI.
  pose proof (inv_len _ HI) as Hlen.
  pose proof (inv_wait _ HI Hst) as Hw. rewrite Forall_lookup in Hw.
  pose proof (Hw i d Hd) as Hs. unfold settled in Hs.
  pose proof Hp as Hp0. cbn [paced] in Hp0.
  destruct Hp0 as (Ht0 & Hnext & Hpts).
  set (a := curr d). set (b := digit_at v i).
  set (dir := scroll_dir v (valueLast s)).
  set (d0 := start_digit b d).
  assert (prev d0 ≠ curr d0) as Hne0 by (cbn; unfold b; congruence).
  assert (sub32 t0 (timeLastFrame d0) = t0) as Hsub.
  { cbn [d0 start_digit timeLastFrame]. unfold sub32.
    rewrite Z.sub_0_r. by apply Z.mod_small. }
  cbn [trace]. unfold bitmaps_drawn.
  cbn [fmap list_fmap concat]. fold (bitmaps_drawn i).
  set (r := displayValue v t0 s).
  assert (length (digits (after r)) = MAX_DIGITS) as Hlen'
    by (by apply displayValue_length).
  assert (digits (after r) !! i
          = Some (next_digit (v / 10 ^ 8) (valueLast s) t0 d0)
          ∧ frames r !! i
            = Some (next_frame (v / 10 ^ 8) (valueLast s) t0 d0))
    as [Hd' Hfr].
  { unfold r. rewrite displayValue_accept by done.
    rewrite anim_case_digits, anim_case_frames by (by rewrite length_spread).
    rewrite !list_lookup_fmap, spread_lookup, Hd. by cbn. }
  destruct (started_digit_unsettled (v / 10 ^ 8) (valueLast s) t0 b d)
    as (Ep & Ec & Hne'); [unfold b; congruence|].
  fold d0 in Ep, Ec, Hne'.
  destruct (flag_settled_core s v t0 Hreach Hv Ht0) as (H1 & H2 & H3 & H4).
  fold r in H1, H2, H3, H4.
  assert (state (after r) = ST_ANIM) as Hst'.
  { assert (state (after r) ≠ ST_WAIT) as Hnw.
    { intros E. apply H2, H1 in E. rewrite Forall_lookup in E.
      by apply Hne', (E i). }
    by destruct (state (after r)). }
  pose proof (H4 Hst') as Hvl'.
  destruct (animate_digit_cases (v / 10 ^ 8) (valueLast s) t0 d0)
    as [[E [Hs0|Hearly]]|(_ & Hdue & E)]; [done| |].
  - (* the clock is below one frame time: nothing is drawn yet *)
    rewrite Hsub in Hearly.
    assert (bitmap_drawn i r = []) as ->.
    { unfold bitmap_drawn, next_frame in *. by rewrite Hfr, E. }
    cbn [app].
    unfold next_digit in Hd'. rewrite E in Hd'. cbn [fst] in Hd'.
    assert (paced (0 :: ts)) as Hp'.
    { cbn [paced]. split; [unfold is_uint32, UINT32_MOD; lia|].
      split; [|done]. destruct ts as [|t1 ts]; [done|].
      destruct Ht0. lia. }
    assert (0 <= 0 <= CHAR_ROWS) as Hk0 by (unfold CHAR_ROWS; lia).
    assert (Z.to_nat (CHAR_ROWS + 1 - 0) <= length ts)%nat as Hn0
      by (unfold CHAR_ROWS; cbn; lia).
    pose proof (roll_frames v i a b ts (after r) 0 0 d0 Hlen' Hst' Hd'
                  (eq_trans eq_refl Hs) eq_refl) as Hroll.
    cbn [d0 start_digit prev index timeLastFrame] in Hroll.
    rewrite Hvl' in Hroll.
    apply Hroll; try done; unfold a, b; congruence.
  - (* the first frame is drawn at once *)
    rewrite Hsub in Hdue.
    assert (bitmap_drawn i r = [scroll dir a b 0]) as ->.
    { unfold bitmap_drawn. rewrite Hd', Hfr.
      unfold next_frame, next_digit. rewrite E. cbn.
      rewrite !scroll_start. cbn [d0 start_digit prev]. by rewrite Hs. }
    unfold next_digit in Hd'. rewrite E in Hd'. cbn [fst] in Hd'.
    revert Hd'. cbn [d0 start_digit prev curr index].
    change (CHAR_ROWS <? incr8 0) with false. cbv iota.
    change (incr8 0) with 1. intros Hd'.
    assert (paced (t0 :: ts)) as Hp' by done.
    assert (0 <= 1 <= CHAR_ROWS) as Hk1 by (unfold CHAR_ROWS; lia).
    assert (Z.to_nat (CHAR_ROWS + 1 - 1) <= length ts)%nat as Hn1
      by (unfold CHAR_ROWS; cbn; lia).
    assert (a ≠ b) as Hab by (unfold a, b; congruence).
    pose proof (roll_frames v i a b ts (after r) 1 t0 _ Hlen' Hst' Hd'
                  Hs eq_refl Hab eq_refl Hk1 eq_refl Hp' Hn1) as Hroll.
    rewrite Hvl' in Hroll. fold dir in Hroll.
    unfold bitmaps_drawn in Hroll. rewrite Hroll. reflexivity.
Qed.

Lemma held_value_frames_witness :
  bitmaps_drawn 0
    (trace ((12345680, 2000) :: ((λ t, (12345680, t)) <$> every 50 2050 9))
           shown_12345679)
  = (λ k, scroll (scroll_dir 12345680 (valueLast shown_12345679))
                 9 (digit_at 12345680 0) k)
      <$> seqZ 0 (CHAR_ROWS + 1).
Proof.
  apply (held_value_frames shown_12345679 12345680 2000 (every 50 2050 9) 0
           (mkDigit 1400 9 9 9 (glyph 9))).
  - apply shown_12345679_reachable.
  - reflexivity.
  - vm_compute. discriminate.
  - unfold is_uint32, UINT32_MOD. lia.
  - vm_compute. repeat split; discriminate.
  - vm_compute. lia.
  - vm_compute. reflexivity.
  - vm_compute. discriminate.
Defined.
